(** * web-camera-kit: capture-to-analysis pipeline

    A shallow embedding of
    - [src/utils/analysisParser.ts]        (module [Parser]),
    - [src/hooks/useMediaCapture.ts]       (module [Controller]),
    - [src/components/PushupAnalysisOverlay.tsx] (module [Overlay]),
    together with the parts of the JavaScript runtime they rely on
    (strings as sequences of UTF-16 code units, the regular expressions
    used by the parser, [JSON.parse], truthiness). *)

From Stdlib Require Import QArith Ascii String Sorted.
From stdpp Require Import base option list gmap.

Local Open Scope N_scope.

(** ** JavaScript strings *)

(** A JavaScript string is a sequence of UTF-16 code units. *)
Definition char := N.
Definition jsstring := list char.
#[global] Typeclasses Transparent char jsstring.

(** ASCII literals, for writing concrete strings. *)
Fixpoint str (s : string) : jsstring :=
  match s with
  | EmptyString => []
  | String a t => N_of_ascii a :: str t
  end.

Arguments str : simpl never.

Module Ch.
Definition tab : char := 9.
Definition lf : char := 10.
Definition cr : char := 13.
Definition space : char := 32.
Definition quote : char := 34.
Definition backslash : char := 92.
Definition backtick : char := 96.
Definition lbrace : char := 123.
Definition rbrace : char := 125.
Definition lbracket : char := 91.
Definition rbracket : char := 93.
Definition colon : char := 58.
Definition comma : char := 44.
End Ch.

(** ECMAScript [WhiteSpace] and [LineTerminator] code points: what
    [String.prototype.trim] removes and what [\s] matches. *)
Definition is_space (c : char) : bool :=
  (9 <=? c) && (c <=? 13)
  || (c =? 32) || (c =? 160) || (c =? 5760)
  || (8192 <=? c) && (c <=? 8202)
  || (c =? 8232) || (c =? 8233) || (c =? 8239) || (c =? 8287)
  || (c =? 12288) || (c =? 65279).

Fixpoint trimStart (s : jsstring) : jsstring :=
  match s with
  | [] => []
  | c :: t => if is_space c then trimStart t else s
  end.

Definition trimEnd (s : jsstring) : jsstring := rev (trimStart (rev s)).

(** [result.trim()] *)
Definition trim (s : jsstring) : jsstring := trimEnd (trimStart s).

(** ** Regular expressions of the parser

    The four expressions of [parseAnalysisResult] are embedded as
    matchers: a matcher looks at the text from the current index on and
    returns the length of the match found there, following the
    alternation order and the greedy optional newline of the source
    expression. *)

(** [prefixb p s]: the literal [p] occurs at the start of [s]. *)
Fixpoint prefixb (p s : jsstring) : bool :=
  match p, s with
  | [], _ => true
  | _ :: _, [] => false
  | a :: p', b :: s' => (a =? b) && prefixb p' s'
  end.

(** [eqb_str p s]: [s] is exactly [p] (a literal followed by [$]). *)
Fixpoint eqb_str (p s : jsstring) : bool :=
  match p, s with
  | [], [] => true
  | a :: p', b :: s' => (a =? b) && eqb_str p' s'
  | _, _ => false
  end.

Definition matcher := bool -> jsstring -> option nat.

(** [s.replace(re, '')] for a global expression [re] that matches no empty
    string: the text is scanned from the left; where the expression
    matches, the match is dropped and scanning resumes after it;
    elsewhere the code unit is kept. [skip] counts the code units of the
    current match still to be dropped, [start] tells whether the index
    is 0 (for [^]). *)
Fixpoint replace_go (m : matcher) (skip : nat) (start : bool) (s : jsstring)
  : jsstring :=
  match s with
  | [] => []
  | c :: t =>
      match skip with
      | S k => replace_go m k false t
      | O =>
          match m start s with
          | Some (S n) => replace_go m n false t
          | _ => c :: replace_go m 0%nat false t
          end
      end
  end.

Definition replace_all (m : matcher) (s : jsstring) : jsstring :=
  replace_go m 0%nat true s.

Definition fence : jsstring := str "```".
Definition fence_json : jsstring := str "```json".

(** [/```json\n?|\n?```/g] *)
Definition re_fence_any : matcher := fun _ s =>
  if prefixb (fence_json ++ [Ch.lf]) s then Some 8%nat
  else if prefixb fence_json s then Some 7%nat
  else if prefixb (Ch.lf :: fence) s then Some 4%nat
  else if prefixb fence s then Some 3%nat
  else None.

(** [/^```\n?|\n?```$/g] *)
Definition re_fence_edge : matcher := fun start s =>
  if start && prefixb (fence ++ [Ch.lf]) s then Some 4%nat
  else if start && prefixb fence s then Some 3%nat
  else if eqb_str (Ch.lf :: fence) s then Some 4%nat
  else if eqb_str fence s then Some 3%nat
  else None.

Arguments re_fence_any : simpl never.
Arguments re_fence_edge : simpl never.

(** [s.replace(/^json\s*/, '')]: not global, anchored at index 0. *)
Definition strip_json_tag (s : jsstring) : jsstring :=
  if prefixb (str "json") s then trimStart (drop 4 s) else s.

(** The text up to and including the last [}] of [s]. *)
Fixpoint through_last_rbrace (s : jsstring) : option jsstring :=
  match s with
  | [] => None
  | c :: t =>
      match through_last_rbrace t with
      | Some r => Some (c :: r)
      | None => if c =? Ch.rbrace then Some [c] else None
      end
  end.

(** [s.match(/\{[\s\S]*\}/)]: the leftmost [{] from which a [}] can be
    reached, extended greedily to the last [}] of the text. When the
    first [{] has no [}] after it, no later one has either. *)
Fixpoint match_braces (s : jsstring) : option jsstring :=
  match s with
  | [] => None
  | c :: t =>
      if c =? Ch.lbrace then
        match through_last_rbrace t with
        | Some r => Some (c :: r)
        | None => None
        end
      else match_braces t
  end.

(** Lines 5-10 of [parseAnalysisResult]. *)
Definition strip_markdown (result : jsstring) : jsstring :=
  strip_json_tag (replace_all re_fence_edge (replace_all re_fence_any (trim result))).

(** Lines 5-16: the text handed to [JSON.parse]. *)
Definition candidate (result : jsstring) : jsstring :=
  let cleanResult := strip_markdown result in
  match match_braces cleanResult with
  | Some m => m
  | None => cleanResult
  end.


(** ** Completions

    A JavaScript evaluation either completes normally with a value or
    throws. *)

Inductive exn : Type :=
  | SyntaxError
  | TypeError
  | StorageError.

Inductive completion (A : Type) : Type :=
  | Normal (a : A)
  | Throw (e : exn).
Arguments Normal {A} a.
Arguments Throw {A} e.

#[global] Instance completion_ret : MRet completion := fun A a => Normal a.
#[global] Instance completion_bind : MBind completion := fun A B k c =>
  match c with
  | Normal a => k a
  | Throw e => Throw e
  end.

(** [try { body } catch (error) { handler }] *)
Definition try_catch {A} (body : completion A) (handler : exn -> completion A)
  : completion A :=
  match body with
  | Normal a => Normal a
  | Throw e => handler e
  end.

(** ** JSON values and [JSON.parse] *)

(** A JSON number literal [(-1)^neg * mant * 10^exp10]. The Number it
    denotes is the double nearest to that value. *)
Record number : Type := mkNumber {
  num_neg : bool;
  num_mant : N;
  num_exp10 : Z
}.

(** The trees [JSON.parse] builds. An object keeps its properties in
    insertion order, one entry per key (the engine lists index-like
    keys first; the order plays no role here). *)
#[warnings="-register-all"]
Inductive json : Type :=
  | JNull
  | JBool (b : bool)
  | JNum (n : number)
  | JStr (s : jsstring)
  | JArr (elems : list json)
  | JObj (props : list (jsstring * json)).

Module JSON.

Inductive token : Type :=
  | TLBrace | TRBrace | TLBracket | TRBracket | TColon | TComma
  | TString (s : jsstring)
  | TNumber (n : number)
  | TTrue | TFalse | TNull.

Definition is_ws (c : char) : bool :=
  (c =? Ch.space) || (c =? Ch.tab) || (c =? Ch.lf) || (c =? Ch.cr).

Definition is_digit (c : char) : bool := (48 <=? c) && (c <=? 57).

Fixpoint take_digits (s : jsstring) : jsstring :=
  match s with
  | c :: t => if is_digit c then c :: take_digits t else []
  | [] => []
  end.

Definition digits_val (ds : jsstring) : N :=
  fold_left (fun acc d => 10 * acc + (d - 48)) ds 0.

Definition hex_val (c : char) : option N :=
  if is_digit c then Some (c - 48)
  else if (97 <=? c) && (c <=? 102) then Some (c - 87)
  else if (65 <=? c) && (c <=? 70) then Some (c - 55)
  else None.

(** The characters of a string literal after its opening quote: the
    decoded string and the number of code units read, closing quote
    included. *)
Fixpoint lex_string (s : jsstring) : option (jsstring * nat) :=
  match s with
  | [] => None
  | c :: t =>
      if c =? Ch.quote then Some ([], 1%nat)
      else if c =? Ch.backslash then
        match t with
        | e :: t' =>
            let simple (d : char) :=
              match lex_string t' with
              | Some (r, n) => Some (d :: r, S (S n))
              | None => None
              end in
            if e =? Ch.quote then simple Ch.quote
            else if e =? Ch.backslash then simple Ch.backslash
            else if e =? 47 then simple 47
            else if e =? 98 then simple 8
            else if e =? 102 then simple 12
            else if e =? 110 then simple Ch.lf
            else if e =? 114 then simple Ch.cr
            else if e =? 116 then simple Ch.tab
            else if e =? 117 then
              match t' with
              | h1 :: h2 :: h3 :: h4 :: t'' =>
                  match hex_val h1, hex_val h2, hex_val h3, hex_val h4,
                        lex_string t'' with
                  | Some a, Some b, Some c', Some d, Some (r, n) =>
                      Some (4096 * a + 256 * b + 16 * c' + d :: r,
                            (6 + n)%nat)
                  | _, _, _, _, _ => None
                  end
              | _ => None
              end
            else None
        | [] => None
        end
      else if c <? 32 then None
      else
        match lex_string t with
        | Some (r, n) => Some (c :: r, S n)
        | None => None
        end
  end.

(** A number literal at the start of [s], by the JSON grammar: an
    optional minus sign; an integer part that is a single 0 or starts
    with a non-zero digit; an optional fraction of a dot and at least
    one digit; an optional exponent of e or E, an optional sign and at
    least one digit. *)
Definition lex_number (s : jsstring) : option (number * nat) :=
  let '(neg, s1) :=
    match s with
    | c :: t => if c =? 45 then (true, t) else (false, s)
    | [] => (false, s)
    end in
  let int :=
    match s1 with
    | c :: _ => if c =? 48 then [c] else take_digits s1
    | [] => []
    end in
  match int with
  | [] => None
  | _ :: _ =>
      let s2 := drop (length int) s1 in
      let frac :=
        match s2 with
        | c :: t => if c =? 46 then Some (take_digits t) else None
        | [] => None
        end in
      match frac with
      | Some [] => None
      | _ =>
          let fd := default [] frac in
          let s3 := match frac with
                    | Some _ => drop (S (length fd)) s2
                    | None => s2
                    end in
          let mant := digits_val (int ++ fd) in
          let nfrac := Z.of_nat (length fd) in
          let before := ((if neg then 1 else 0) + length int
                         + match frac with Some _ => S (length fd) | None => 0 end)%nat in
          match s3 with
          | c :: t =>
              if (c =? 101) || (c =? 69) then
                let '(eneg, t1, sl) :=
                  match t with
                  | g :: t' =>
                      if g =? 45 then (true, t', 1%nat)
                      else if g =? 43 then (false, t', 1%nat)
                      else (false, t, 0%nat)
                  | [] => (false, t, 0%nat)
                  end in
                match take_digits t1 with
                | [] => None
                | ed =>
                    let e := Z.of_N (digits_val ed) in
                    Some (mkNumber neg mant
                            ((if eneg then - e else e) - nfrac)%Z,
                          (before + 1 + sl + length ed)%nat)
                end
              else Some (mkNumber neg mant (- nfrac)%Z, before)
          | [] => Some (mkNumber neg mant (- nfrac)%Z, before)
          end
      end
  end.

(** The tokens of a text; [None] at the first illegal character.
    [skip] counts the code units of the current token still to pass. *)
Fixpoint lex_go (skip : nat) (s : jsstring) : option (list token) :=
  match s with
  | [] => Some []
  | c :: t =>
      match skip with
      | S k => lex_go k t
      | O =>
          let emit (tok : token) (n : nat) :=
            match lex_go n t with
            | Some toks => Some (tok :: toks)
            | None => None
            end in
          if is_ws c then lex_go 0%nat t
          else if c =? Ch.lbrace then emit TLBrace 0%nat
          else if c =? Ch.rbrace then emit TRBrace 0%nat
          else if c =? Ch.lbracket then emit TLBracket 0%nat
          else if c =? Ch.rbracket then emit TRBracket 0%nat
          else if c =? Ch.colon then emit TColon 0%nat
          else if c =? Ch.comma then emit TComma 0%nat
          else if c =? Ch.quote then
            match lex_string t with
            | Some (r, n) => emit (TString r) n
            | None => None
            end
          else if (c =? 45) || is_digit c then
            match lex_number s with
            | Some (x, n) => emit (TNumber x) (pred n)
            | None => None
            end
          else if prefixb (str "true") s then emit TTrue 3%nat
          else if prefixb (str "false") s then emit TFalse 4%nat
          else if prefixb (str "null") s then emit TNull 3%nat
          else None
      end
  end.

Definition lex (s : jsstring) : option (list token) := lex_go 0%nat s.

(** Property definition on the object under construction: a repeated
    key overwrites the earlier value in place. *)
Fixpoint obj_set (k : jsstring) (v : json) (props : list (jsstring * json))
  : list (jsstring * json) :=
  match props with
  | [] => [(k, v)]
  | (k', v') :: t =>
      if decide (k = k') then (k, v) :: t else (k', v') :: obj_set k v t
  end.

(** Containers under construction. *)
Inductive frame : Type :=
  | FArr (elems : list json)
  | FObj (props : list (jsstring * json)) (key : jsstring).

(** Parser states: what the grammar allows next. *)
Inductive pstate : Type :=
  | PValue (stk : list frame)
  | PArrFirst (stk : list frame)
  | PArrNext (elems : list json) (stk : list frame)
  | PObjFirst (stk : list frame)
  | PObjKey (props : list (jsstring * json)) (stk : list frame)
  | PColon (props : list (jsstring * json)) (key : jsstring) (stk : list frame)
  | PObjNext (props : list (jsstring * json)) (stk : list frame)
  | PDone (v : json).

(** A completed value goes into the innermost open container. *)
Definition push_value (v : json) (stk : list frame) : pstate :=
  match stk with
  | [] => PDone v
  | FArr elems :: stk' => PArrNext (elems ++ [v]) stk'
  | FObj props k :: stk' => PObjNext (obj_set k v props) stk'
  end.

Definition start_value (tok : token) (stk : list frame) : option pstate :=
  match tok with
  | TLBrace => Some (PObjFirst stk)
  | TLBracket => Some (PArrFirst stk)
  | TString s => Some (push_value (JStr s) stk)
  | TNumber n => Some (push_value (JNum n) stk)
  | TTrue => Some (push_value (JBool true) stk)
  | TFalse => Some (push_value (JBool false) stk)
  | TNull => Some (push_value JNull stk)
  | _ => None
  end.

Definition step (st : pstate) (tok : token) : option pstate :=
  match st, tok with
  | PValue stk, _ => start_value tok stk
  | PArrFirst stk, TRBracket => Some (push_value (JArr []) stk)
  | PArrFirst stk, _ => start_value tok (FArr [] :: stk)
  | PArrNext elems stk, TComma => Some (PValue (FArr elems :: stk))
  | PArrNext elems stk, TRBracket => Some (push_value (JArr elems) stk)
  | PObjFirst stk, TRBrace => Some (push_value (JObj []) stk)
  | PObjFirst stk, TString k => Some (PColon [] k stk)
  | PObjKey props stk, TString k => Some (PColon props k stk)
  | PColon props k stk, TColon => Some (PValue (FObj props k :: stk))
  | PObjNext props stk, TComma => Some (PObjKey props stk)
  | PObjNext props stk, TRBrace => Some (push_value (JObj props) stk)
  | _, _ => None
  end.

Fixpoint run (st : pstate) (toks : list token) : option pstate :=
  match toks with
  | [] => Some st
  | tok :: rest =>
      match step st tok with
      | Some st' => run st' rest
      | None => None
      end
  end.

(** [JSON.parse(text)] without reviver. The engine's limit on nesting
    depth is not modelled. *)
Definition parse (text : jsstring) : completion json :=
  match lex text with
  | Some toks =>
      match run (PValue []) toks with
      | Some (PDone v) => Normal v
      | _ => Throw SyntaxError
      end
  | None => Throw SyntaxError
  end.

End JSON.

(** In examples a JSON text is written with ['] for the double quote. *)
Definition jstr (s : string) : jsstring :=
  map (fun c => if c =? 39 then Ch.quote else c) (str s).

(** ** Truthiness and property access *)

(** The double nearest to a literal is [+0] or [-0] exactly when the
    literal's value is at most [2^-1075], half the least positive
    double (a tie goes to the even neighbour, which is zero). *)
Definition num_is_zero (n : number) : bool :=
  (num_mant n =? 0)
  || ((num_exp10 n <? 0)%Z
      && (Z.of_N (num_mant n) * 2 ^ 1075 <=? 10 ^ (- num_exp10 n))%Z).

(** [ToBoolean] on a decoded tree. *)
Definition js_truthy (v : json) : bool :=
  match v with
  | JNull => false
  | JBool b => b
  | JNum n => negb (num_is_zero n)
  | JStr s => negb (bool_decide (s = []))
  | JArr _ => true
  | JObj _ => true
  end.

(** [ToBoolean] on a value that may be [undefined] (or [null]). *)
Definition truthy (v : option json) : bool :=
  match v with
  | Some x => js_truthy x
  | None => false
  end.

(** [ToBoolean] on an optional string. *)
Definition truthy_str (s : option jsstring) : bool :=
  match s with
  | Some (_ :: _) => true
  | _ => false
  end.

(** [ToBoolean] on an optional boolean. *)
Definition truthy_bool (b : option bool) : bool := default false b.

Fixpoint obj_get (k : jsstring) (props : list (jsstring * json)) : option json :=
  match props with
  | [] => None
  | (k', v) :: t => if decide (k = k') then Some v else obj_get k t
  end.

(** [v.k] for a property name [k] that no built-in prototype defines
    and that is neither [length] nor an index: [null.k] throws, an
    object answers with its own property, every other value with
    [undefined]. *)
Definition get (v : json) (k : jsstring) : completion (option json) :=
  match v with
  | JNull => Throw TypeError
  | JObj props => Normal (obj_get k props)
  | _ => Normal None
  end.

(** ** [src/utils/analysisParser.ts] *)

Module Parser.

(** The body of the [try] block, lines 5-33. Logging is left out. *)
Definition parse_body (result : jsstring) : completion (option json) :=
  parsedData ← JSON.parse (candidate result);
  summary ← get parsedData (str "summary");
  if truthy summary then
    timeline ← get parsedData (str "timeline");
    if truthy timeline then
      insights ← get parsedData (str "insights");
      if truthy insights then Normal (Some parsedData) else Normal None
    else Normal None
  else Normal None.

(** [parseAnalysisResult]; [None] is [null]. *)
Definition parseAnalysisResult (result : jsstring) : completion (option json) :=
  try_catch (parse_body result) (fun _ => Normal None).

End Parser.

(** ** [src/types/media.ts] *)

Inductive MediaType : Type := Photo | Video.

#[global] Instance MediaType_eq_dec : EqDecision MediaType.
Proof. solve_decision. Defined.

(** The payload of a capture. *)
Definition Blob := list N.

(** [CapturedMedia['geminiAnalysis']]. A field is [None] when the
    object has no such property: the interface requires [result],
    [prompt] and [timestamp], but an object built by spreading an
    [undefined] analysis ([{...m.geminiAnalysis!, pushupData}]) has
    none of them. *)
Module GeminiAnalysis.
Record t : Type := mk {
  result : option jsstring;
  prompt : option jsstring;
  timestamp : option Z;
  isProcessing : option bool;
  error : option jsstring;
  pushupData : option json
}.

(** [{...a}] for an analysis that may be [undefined]. *)
Definition spread (a : option t) : t :=
  default (mk None None None None None None) a.
End GeminiAnalysis.

Module CapturedMedia.
Record t : Type := mk {
  id : jsstring;
  type : MediaType;
  url : jsstring;
  blob : Blob;
  timestamp : Z;
  filename : jsstring;
  indexedDbId : option jsstring;
  geminiAnalysis : option GeminiAnalysis.t
}.

(** [{...m, geminiAnalysis: a}] *)
Definition with_geminiAnalysis (m : t) (a : option GeminiAnalysis.t) : t :=
  mk (id m) (type m) (url m) (blob m) (timestamp m) (filename m)
     (indexedDbId m) a.

(** [{...m, indexedDbId: k}] *)
Definition with_indexedDbId (m : t) (k : jsstring) : t :=
  mk (id m) (type m) (url m) (blob m) (timestamp m) (filename m)
     (Some k) (geminiAnalysis m).
End CapturedMedia.

(** [StoredMediaData], as the hook builds it (lines 109-116, 218-225). *)
Module StoredMediaData.
Record t : Type := mk {
  id : jsstring;
  type : MediaType;
  blob : Blob;
  timestamp : Z;
  filename : jsstring;
  geminiAnalysis : option GeminiAnalysis.t
}.
End StoredMediaData.

(** [GeminiVideoProcessingResult] of the inference client. *)
Module GeminiResult.
Record t : Type := mk {
  success : bool;
  result : option jsstring;
  error : option jsstring
}.
End GeminiResult.

(** ** [reprocessAnalysis] *)

Module Reprocess.

(** The guard of lines 48-51. *)
Definition needs_parsing (item : CapturedMedia.t) : bool :=
  bool_decide (CapturedMedia.type item = Video)
  && match CapturedMedia.geminiAnalysis item with
     | Some a =>
         truthy_str (GeminiAnalysis.result a)
         && negb (truthy (GeminiAnalysis.pushupData a))
         && negb (truthy_bool (GeminiAnalysis.isProcessing a))
     | None => false
     end.

(** [item.geminiAnalysis.result], the text handed to the parser. *)
Definition raw_text (item : CapturedMedia.t) : jsstring :=
  default [] (GeminiAnalysis.result
                (GeminiAnalysis.spread (CapturedMedia.geminiAnalysis item))).

Section Loop.
(** The caller's state, changed only by [updateCallback]. *)
Context {State : Type}.
Variable updateCallback : jsstring -> json -> State -> State.

(** The [for ... of] loop, with [reprocessedCount] and the caller's
    state as accumulators. *)
Fixpoint loop (media : list CapturedMedia.t) (reprocessedCount : nat)
    (st : State) : completion nat * State :=
  match media with
  | [] => (Normal reprocessedCount, st)
  | item :: rest =>
      if needs_parsing item then
        match Parser.parseAnalysisResult (raw_text item) with
        | Normal pushupData =>
            if truthy pushupData
            then loop rest (S reprocessedCount)
                   (updateCallback (CapturedMedia.id item)
                      (default JNull pushupData) st)
            else loop rest reprocessedCount st
        | Throw e => (Throw e, st)
        end
      else loop rest reprocessedCount st
  end.

(** [reprocessAnalysis(media, updateCallback)]: the count returned
    and the caller's state after the callbacks. *)
Definition reprocessAnalysis (media : list CapturedMedia.t) (st : State)
  : completion nat * State :=
  loop media 0%nat st.
End Loop.

End Reprocess.

(** ** [src/hooks/useMediaCapture.ts] *)

Module Controller.

(** The in-memory collection [capturedMedia] and the content of the
    durable store. *)
Record world : Type := mkWorld {
  capturedMedia : list CapturedMedia.t;
  db : gmap jsstring StoredMediaData.t
}.

(** What the hook reads from its surroundings during one operation:
    [geminiService.isConfigured()], the answer of
    [geminiService.processVideo] to a payload and a prompt,
    [Date.now()], the key under which the store files a record, and
    whether the store is out of order. *)
Record env : Type := mkEnv {
  isConfigured : bool;
  processVideo : Blob -> jsstring -> completion GeminiResult.t;
  now : Z;
  storeKey : StoredMediaData.t -> jsstring;
  storeUnavailable : bool
}.

(** Operations of the hook: they change the world and complete
    normally or throw. *)
Definition M (A : Type) : Type := world -> completion A * world.

#[global] Instance M_ret : MRet M := fun A a w => (Normal a, w).
#[global] Instance M_bind : MBind M := fun A B k c w =>
  match c w with
  | (Normal a, w') => k a w'
  | (Throw e, w') => (Throw e, w')
  end.

Definition try_catchM {A} (body : M A) (handler : exn -> M A) : M A :=
  fun w =>
    match body w with
    | (Normal a, w') => (Normal a, w')
    | (Throw e, w') => handler e w'
    end.

Definition lift {A} (c : completion A) : M A := fun w => (c, w).

(** [setCapturedMedia(prev => f(prev))] *)
Definition setCapturedMedia
    (f : list CapturedMedia.t -> list CapturedMedia.t) : M unit :=
  fun w => (Normal (), mkWorld (f (capturedMedia w)) (db w)).

(** Modelled from the spec: [mediaDatabase.storeMedia] of
    [src/utils/indexedDb.ts], the store's [put]: it files the record
    under its key, replacing a record already filed there, and answers
    with the key; it fails, changing nothing, when the store is
    unavailable. The key is the store's choice ([storeKey]); the hook
    reads it back from [stored.id] (line 27), which makes it the
    record's own id. *)
Definition storeMedia (e : env) (d : StoredMediaData.t) : M jsstring :=
  fun w =>
    if storeUnavailable e then (Throw StorageError, w)
    else (Normal (storeKey e d),
          mkWorld (capturedMedia w) (<[storeKey e d := d]> (db w))).

(** Modelled from the spec: [mediaDatabase.deleteMedia] of
    [src/utils/indexedDb.ts], the store's [delete]. *)
Definition deleteMedia (e : env) (key : jsstring) : M unit :=
  fun w =>
    if storeUnavailable e then (Throw StorageError, w)
    else (Normal (), mkWorld (capturedMedia w) (delete key (db w))).

(** The three by-id updates of [processVideoWithGemini] and the one
    of the reprocessing callback. *)

(** Lines 99-105 and 130-136: [prev.map(m => m.id === id ? {...m,
    geminiAnalysis: a} : m)]. *)
Definition apply_analysis (id : jsstring) (a : GeminiAnalysis.t)
    (prev : list CapturedMedia.t) : list CapturedMedia.t :=
  (fun m => if decide (CapturedMedia.id m = id)
            then CapturedMedia.with_geminiAnalysis m (Some a)
            else m) <$> prev.

(** Lines 144-157. *)
Definition mark_processing_failed (id : jsstring)
    (prev : list CapturedMedia.t) : list CapturedMedia.t :=
  (fun m =>
     if decide (CapturedMedia.id m = id) then
       let a := GeminiAnalysis.spread (CapturedMedia.geminiAnalysis m) in
       CapturedMedia.with_geminiAnalysis m
         (Some (GeminiAnalysis.mk
                  (GeminiAnalysis.result a) (GeminiAnalysis.prompt a)
                  (GeminiAnalysis.timestamp a) (Some false)
                  (Some (str "Processing failed"))
                  (GeminiAnalysis.pushupData a)))
     else m) <$> prev.

(** Lines 40-52, the callback handed to [reprocessAnalysis]. *)
Definition apply_pushupData (id : jsstring) (pushupData : json)
    (prev : list CapturedMedia.t) : list CapturedMedia.t :=
  (fun m =>
     if decide (CapturedMedia.id m = id) then
       let a := GeminiAnalysis.spread (CapturedMedia.geminiAnalysis m) in
       CapturedMedia.with_geminiAnalysis m
         (Some (GeminiAnalysis.mk
                  (GeminiAnalysis.result a) (GeminiAnalysis.prompt a)
                  (GeminiAnalysis.timestamp a) (GeminiAnalysis.isProcessing a)
                  (GeminiAnalysis.error a) (Some pushupData)))
     else m) <$> prev.

Definition fallback_prompt : jsstring :=
  str "Analyze this video and describe what you see in detail.".

(** The record written to the store for [media] with analysis [a]. *)
Definition stored_data (media : CapturedMedia.t)
    (a : option GeminiAnalysis.t) : StoredMediaData.t :=
  StoredMediaData.mk (CapturedMedia.id media) (CapturedMedia.type media)
    (CapturedMedia.blob media) (CapturedMedia.timestamp media)
    (CapturedMedia.filename media) a.

(** Lines 91-96. *)
Definition updatedAnalysis (old : GeminiAnalysis.t) (text : jsstring)
    (pushupData : option json) : GeminiAnalysis.t :=
  GeminiAnalysis.mk (Some text) (GeminiAnalysis.prompt old)
    (GeminiAnalysis.timestamp old) (Some false) (GeminiAnalysis.error old)
    pushupData.

(** Lines 124-128. *)
Definition errorAnalysis (old : GeminiAnalysis.t) (err : option jsstring)
    : GeminiAnalysis.t :=
  GeminiAnalysis.mk (GeminiAnalysis.result old) (GeminiAnalysis.prompt old)
    (GeminiAnalysis.timestamp old) (Some false)
    (Some (if truthy_str err then default [] err else str "Analysis failed"))
    (GeminiAnalysis.pushupData old).

(** Line 82: the prompt submitted for an analysis. *)
Definition submitted_prompt (analysis : GeminiAnalysis.t) : jsstring :=
  if truthy_str (GeminiAnalysis.prompt analysis)
  then default [] (GeminiAnalysis.prompt analysis)
  else fallback_prompt.

(** [processVideoWithGemini], lines 78-159. The world it runs in is
    the one found when the inference client answers. *)
Definition processVideoWithGemini (e : env) (media : CapturedMedia.t) : M unit :=
  match CapturedMedia.type media, CapturedMedia.geminiAnalysis media with
  | Video, Some analysis =>
      try_catchM
        (let prompt := submitted_prompt analysis in
         result ← lift (processVideo e (CapturedMedia.blob media) prompt);
         if GeminiResult.success result && truthy_str (GeminiResult.result result)
         then
           let text := default [] (GeminiResult.result result) in
           parsed ← lift (Parser.parseAnalysisResult text);
           let pushupData := if truthy parsed then parsed else None in
           let updated := updatedAnalysis analysis text pushupData in
           _ ← setCapturedMedia (apply_analysis (CapturedMedia.id media) updated);
           if truthy_str (CapturedMedia.indexedDbId media)
           then _ ← storeMedia e (stored_data media (Some updated)); mret ()
           else mret ()
         else
           setCapturedMedia
             (apply_analysis (CapturedMedia.id media)
                (errorAnalysis analysis (GeminiResult.error result))))
        (fun _ => setCapturedMedia (mark_processing_failed (CapturedMedia.id media)))
  | _, _ => mret ()
  end.

(** The structured-report prompt of lines 172-208. *)
Definition analysis_prompt : jsstring :=
  jstr "Analyze this pushup video and provide detailed structured information. Return ONLY a valid JSON object with this exact structure:

{
  'summary': {
    'totalCount': <number>,
    'validPushups': <number>,
    'invalidPushups': <number>,
    'duration': '<MM:SS>',
    'averageRepsPerMinute': <number>
  },
  'quality': {
    'overallScore': <1-10>,
    'formNotes': ['<note1>', '<note2>'],
    'commonIssues': ['<issue1>', '<issue2>']
  },
  'timeline': [
    {
      'repNumber': <number>,
      'timestamp': '<MM:SS>',
      'timestampSeconds': <seconds>,
      'quality': '<excellent|good|poor|invalid>',
      'notes': '<optional notes>'
    }
  ],
  'insights': {
    'bestRep': {
      'repNumber': <number>,
      'timestamp': '<MM:SS>',
      'timestampSeconds': <seconds>,
      'reason': '<explanation>'
    },
    'improvementAreas': ['<area1>', '<area2>'],
    'strengths': ['<strength1>', '<strength2>']
  }
}

Focus on: rep count, form quality, timestamps, and actionable feedback. Be precise with timestamps.".

(** Lines 168-212: the pending analysis attached to a new video. *)
Definition pending_analysis (e : env) : GeminiAnalysis.t :=
  GeminiAnalysis.mk (Some []) (Some analysis_prompt) (Some (now e))
    (Some true) None None.

(** [addMedia], lines 161-249. The answer is the record for which
    [processVideoWithGemini] has been started (line 241), if any; that
    call is not awaited and takes effect when the inference client
    answers. *)
Definition addMedia (e : env) (media : CapturedMedia.t)
    : M (option CapturedMedia.t) :=
  try_catchM
    (let wants_analysis :=
       bool_decide (CapturedMedia.type media = Video) && isConfigured e in
     let mediaWithProcessing :=
       if wants_analysis
       then CapturedMedia.with_geminiAnalysis media (Some (pending_analysis e))
       else media in
     let storedData :=
       stored_data mediaWithProcessing
         (CapturedMedia.geminiAnalysis mediaWithProcessing) in
     indexedDbId ← storeMedia e storedData;
     let mediaWithId :=
       CapturedMedia.with_indexedDbId mediaWithProcessing indexedDbId in
     _ ← setCapturedMedia (fun prev => mediaWithId :: prev);
     if wants_analysis then mret (Some mediaWithId) else mret None)
    (fun _ => _ ← setCapturedMedia (fun prev => media :: prev); mret None).

(** [removeMedia], lines 251-269. A failed deletion is caught and
    logged (line 262). Revoking the object URL is left out. *)
Definition removeMedia (e : env) (id : jsstring) : M unit :=
  fun w =>
    let prev := capturedMedia w in
    let mediaToRemove :=
      List.find (fun m => bool_decide (CapturedMedia.id m = id)) prev in
    let w1 :=
      match mediaToRemove with
      | Some m =>
          match CapturedMedia.indexedDbId m with
          | Some (c :: k) =>
              snd (try_catchM (deleteMedia e (c :: k)) (fun _ => mret ()) w)
          | _ => w
          end
      | None => w
      end in
    (Normal (),
     mkWorld (filter (fun m => CapturedMedia.id m ≠ id) prev) (db w1)).

(** The reprocessing scheduled after loading (lines 38-54), run on
    the restored records against the in-memory collection. *)
Definition reprocess_restored (restoredMedia : list CapturedMedia.t)
    : M nat :=
  fun w =>
    let '(n, media') :=
      Reprocess.reprocessAnalysis apply_pushupData restoredMedia
        (capturedMedia w) in
    (n, mkWorld media' (db w)).

End Controller.

(** ** [src/components/PushupAnalysisOverlay.tsx] *)

Module Overlay.

Inductive Quality : Type := excellent | good | poor | invalid.

(** An entry of [PushupAnalysis['timeline']]. A finite double is
    represented by the rational it denotes, on which the comparisons
    of doubles are exact; [repNumber] is a double with an integer
    value, represented by that integer. *)
Record RepEvent : Type := mkRep {
  repNumber : Z;
  timestamp : jsstring;
  timestampSeconds : Q;
  quality : Quality;
  notes : option jsstring
}.

(** [HTMLMediaElement.duration]: [NaN] before the metadata is known,
    [+Infinity] for an unbounded stream, the length in seconds
    otherwise. *)
Inductive Duration : Type :=
  | DurationNaN
  | DurationInfinity
  | DurationSeconds (d : Q).

(** The video element, as far as the handler reads it. *)
Record Video : Type := mkVideo {
  video_currentTime : Q;
  duration : Duration
}.

(** The component's state (lines 18-20). *)
Record state : Type := mkState {
  currentTime : Q;
  isPlaying : bool;
  activeRep : option Z
}.

Definition initial : state := mkState 0 false None.

Definition Qlt_bool (x y : Q) : bool := negb (Qle_bool y x).

(** [t < nextTime] where [nextTime] is a timestamp or the duration. *)
Definition before (t : Q) (nextTime : Duration) : bool :=
  match nextTime with
  | DurationNaN => false
  | DurationInfinity => true
  | DurationSeconds d => Qlt_bool t d
  end.

(** The distance between neighbouring doubles around [x]: 1 below
    [2^53] in magnitude, where a double holds every integer, and
    [2^(e - 52)] for [2^e <= |x| < 2^(e + 1)] from there on. *)
Definition spacing (x : Z) : Z :=
  if (Z.abs x <? 2 ^ 53)%Z then 1%Z else (2 ^ (Z.log2 (Z.abs x) - 52))%Z.

(** The double nearest to the integer [x], the one with the even
    significand when [x] lies half way between two doubles. *)
Definition nearest_double (x : Z) : Z :=
  let u := spacing x in
  let q := (x / u)%Z in
  let r := (x mod u)%Z in
  if (2 * r <? u)%Z then (q * u)%Z
  else if (u <? 2 * r)%Z then ((q + 1) * u)%Z
  else if Z.even q then (q * u)%Z else ((q + 1) * u)%Z.

(** [n + 1] on doubles: the sum, rounded. It is [n + 1] below [2^53]
    in magnitude; [2^53 + 1] is [2^53]. *)
Definition plus_one (n : Z) : Z := nearest_double (n + 1).

(** Line 33: [timeline.find(r => r.repNumber === rep.repNumber + 1)]. *)
Definition nextRep (timeline : list RepEvent) (rep : RepEvent)
    : option RepEvent :=
  List.find (fun r => (repNumber r =? plus_one (repNumber rep))%Z) timeline.

(** Line 34. *)
Definition nextTime (timeline : list RepEvent) (d : Duration)
    (rep : RepEvent) : Duration :=
  match nextRep timeline rep with
  | Some r => DurationSeconds (timestampSeconds r)
  | None => d
  end.

(** Lines 32-35: the predicate handed to [find]. *)
Definition is_active (timeline : list RepEvent) (d : Duration) (t : Q)
    (rep : RepEvent) : bool :=
  Qle_bool (timestampSeconds rep) t && before t (nextTime timeline d rep).

(** Lines 31-36: [currentRep]. *)
Definition currentRep (timeline : list RepEvent) (d : Duration) (t : Q)
    : option RepEvent :=
  List.find (is_active timeline d t) timeline.

(** [handleTimeUpdate], lines 27-39. The handler is created anew by
    the effect whenever [currentTime] changes (line 53), so the
    [currentTime] it reads is the state's value at the last render;
    [setCurrentTime] only takes effect with the next render. *)
Definition handleTimeUpdate (timeline : list RepEvent) (video : Video)
    (st : state) : state :=
  mkState (video_currentTime video) (isPlaying st)
    (repNumber <$> currentRep timeline (duration video) (currentTime st)).

(** The handler run on the successive states of the video element. *)
Definition play (timeline : list RepEvent) (videos : list Video)
    (st : state) : state :=
  fold_left (fun s v => handleTimeUpdate timeline v s) videos st.

(** *** Rendering (lines 141, 147-162, 188-210) *)

(** [activeRep || '—'] *)
Inductive readout : Type :=
  | ReadoutRep (n : Z)
  | ReadoutPlaceholder.

(** What a JSX child expression contributes: nothing for [null] and
    [false], the digits of a number, or the panel of a rep. *)
Inductive child : Type :=
  | Nothing
  | NumberText (n : Z)
  | RepPanel (r : RepEvent).

Record view : Type := mkView {
  rep_readout : readout;
  highlighted : list bool;
  current_rep_info : child
}.

(** [ToBoolean] on [activeRep : number | null]. *)
Definition truthy_rep (a : option Z) : bool :=
  match a with
  | Some n => negb (n =? 0)%Z
  | None => false
  end.

Definition render_readout (a : option Z) : readout :=
  match a with
  | Some n => if truthy_rep a then ReadoutRep n else ReadoutPlaceholder
  | None => ReadoutPlaceholder
  end.

(** [activeRep === rep.repNumber] *)
Definition is_highlighted (a : option Z) (rep : RepEvent) : bool :=
  match a with
  | Some n => (n =? repNumber rep)%Z
  | None => false
  end.

(** [{activeRep && (...)}] *)
Definition render_info (timeline : list RepEvent) (a : option Z) : child :=
  match a with
  | None => Nothing
  | Some n =>
      if truthy_rep a then
        match List.find (fun r => (repNumber r =? n)%Z) timeline with
        | Some currentRepData => RepPanel currentRepData
        | None => Nothing
        end
      else NumberText n
  end.

Definition render (timeline : list RepEvent) (st : state) : view :=
  mkView (render_readout (activeRep st))
    (is_highlighted (activeRep st) <$> timeline)
    (render_info timeline (activeRep st)).

End Overlay.

(** ** Vocabulary of the statements *)

(** [v.k] is truthy. *)
Definition has_truthy (v : json) (k : jsstring) : bool :=
  match get v k with
  | Normal o => truthy o
  | Throw _ => false
  end.

(** The test of line 22. *)
Definition looks_like_analysis (v : json) : bool :=
  has_truthy v (str "summary") && has_truthy v (str "timeline")
  && has_truthy v (str "insights").

(** [v] is an object with a property [k], whatever its value. *)
Definition has_key (v : json) (k : jsstring) : Prop :=
  match v with
  | JObj props => is_Some (obj_get k props)
  | _ => False
  end.

(** The three keys the parser looks for. *)
Definition required_keys : list jsstring :=
  [str "summary"; str "timeline"; str "insights"].

(** The text contains no triple backtick. *)
Definition fence_free (s : jsstring) : Prop :=
  forall a b, s <> a ++ fence ++ b.

(** What the reprocessing recovers from one record: its id and the
    structure parsed from its stored text. *)
Definition recovered_from (item : CapturedMedia.t) : option (jsstring * json) :=
  if Reprocess.needs_parsing item then
    match Parser.parseAnalysisResult (Reprocess.raw_text item) with
    | Normal (Some d) =>
        if js_truthy d then Some (CapturedMedia.id item, d) else None
    | _ => None
    end
  else None.

(** The updates a reprocessing run makes, in order. *)
Definition recovered (media : list CapturedMedia.t) : list (jsstring * json) :=
  omap recovered_from media.

(** Sample records and services for the examples. *)
Module Sample.
Definition video1 : CapturedMedia.t :=
  CapturedMedia.mk (str "video_1700000000000_k3j9x2m1a") Video
    (str "blob:7f1c") [26; 69; 223; 163] 1700000000000
    (str "video_2023-11-14T22-13-20.webm") None None.

Definition photo1 : CapturedMedia.t :=
  CapturedMedia.mk (str "photo_1700000000900_q8w2e4r6t") Photo
    (str "blob:9a2d") [255; 216; 255] 1700000000900
    (str "photo_2023-11-14T22-13-20.jpg") None None.

(** An inference client that reports a failure. *)
Definition failing (message : jsstring)
    : Blob -> jsstring -> completion GeminiResult.t :=
  fun _ _ => Normal (GeminiResult.mk false None (Some message)).

(** An inference client that answers with a text. *)
Definition answering (text : jsstring)
    : Blob -> jsstring -> completion GeminiResult.t :=
  fun _ _ => Normal (GeminiResult.mk true (Some text) None).

Definition report : jsstring :=
  jstr "```json
{'summary':{'totalCount':2},'timeline':[{'repNumber':1,'timestampSeconds':3}],'insights':{'strengths':[]}}
```".

(** Services with a store that files a record under its id. *)
Definition services (inference : Blob -> jsstring -> completion GeminiResult.t)
    (storeUnavailable : bool) : Controller.env :=
  Controller.mkEnv true inference 1700000000500 StoredMediaData.id
    storeUnavailable.

(** [video1] as [addMedia] leaves it in memory when the store works. *)
Definition video1_pending (e : Controller.env) : CapturedMedia.t :=
  CapturedMedia.with_indexedDbId
    (CapturedMedia.with_geminiAnalysis video1
       (Some (Controller.pending_analysis e)))
    (CapturedMedia.id video1).

(** A timeline entry with a number and a time. *)
Definition rep (n : Z) (seconds : Q) : Overlay.RepEvent :=
  Overlay.mkRep n [] seconds Overlay.good None.

(** The timeline of the specification's example: rep 3 is missing. *)
Definition sparse : list Overlay.RepEvent :=
  [rep 1 0; rep 2 10; rep 4 30].

Definition forty : Overlay.Duration := Overlay.DurationSeconds 40.
End Sample.

(** A code unit [c] is a barrier for a matcher when no match contains
    it: what follows [c] does not influence a match before it, and a
    match that starts before [c] ends before [c]. *)
Record barrier (m : matcher) (c : char) : Prop := {
  barrier_ctx : forall st a t, m st (a ++ c :: t) = m st (a ++ [c]);
  barrier_len : forall st a n, m st (a ++ [c]) = Some n -> (n <= length a)%nat
}.

(** The code units that occur in a match of the first expression. *)
Definition fence_any_alphabet : list char := fence_json ++ [Ch.lf].

(** The reprocessing callback of the hook on one record. *)
Definition recover_one (u : jsstring * json) (m : CapturedMedia.t)
    : CapturedMedia.t :=
  if decide (CapturedMedia.id m = u.1) then
    let a := GeminiAnalysis.spread (CapturedMedia.geminiAnalysis m) in
    CapturedMedia.with_geminiAnalysis m
      (Some (GeminiAnalysis.mk
               (GeminiAnalysis.result a) (GeminiAnalysis.prompt a)
               (GeminiAnalysis.timestamp a) (GeminiAnalysis.isProcessing a)
               (GeminiAnalysis.error a) (Some u.2)))
  else m.

(** A series of such callbacks on one record. *)
Definition recover_all (us : list (jsstring * json)) (m : CapturedMedia.t)
    : CapturedMedia.t :=
  foldl (fun m u => recover_one u m) m us.

(** The record carries a truthy [pushupData]. *)
Definition has_structure (m : CapturedMedia.t) : Prop :=
  exists a, CapturedMedia.geminiAnalysis m = Some a
            /\ truthy (GeminiAnalysis.pushupData a) = true.

(** A triple backtick occurs in the text. *)
Fixpoint has_fence (s : jsstring) : bool :=
  match s with
  | [] => false
  | _ :: t => prefixb fence s || has_fence t
  end.

(** ** More of [src/hooks/useMediaCapture.ts] *)

Module Hook.
Import Controller.

(** Modelled from the spec: [mediaDatabase.clearAllMedia] of
    [src/utils/indexedDb.ts], the store's [clear]. *)
Definition clearStore (e : env) : M unit :=
  fun w =>
    if storeUnavailable e then (Throw StorageError, w)
    else (Normal (), mkWorld (capturedMedia w) ∅).

(** [clearAllMedia], lines 271-287. Revoking the object URLs is left
    out. *)
Definition clearAllMedia (e : env) : M unit :=
  _ ← try_catchM (clearStore e) (fun _ => mret ());
  setCapturedMedia (fun _ => []).

(** [array.map(f)] for a callback that may throw: left to right, up to
    the first exception. *)
Fixpoint map_throwing {A B} (f : A -> completion B) (l : list A)
    : completion (list B) :=
  match l with
  | [] => Normal []
  | x :: rest =>
      y ← f x;
      ys ← map_throwing f rest;
      Normal (y :: ys)
  end.

(** Lines 20-29: a stored record back in memory, with the object URL
    the platform hands out for its payload. *)
Definition restore (createObjectURL : Blob -> completion jsstring)
    (stored : StoredMediaData.t) : completion CapturedMedia.t :=
  url ← createObjectURL (StoredMediaData.blob stored);
  Normal (CapturedMedia.mk (StoredMediaData.id stored)
            (StoredMediaData.type stored) url (StoredMediaData.blob stored)
            (StoredMediaData.timestamp stored)
            (StoredMediaData.filename stored)
            (Some (StoredMediaData.id stored))
            (StoredMediaData.geminiAnalysis stored)).

(** Line 32: [sort((a, b) => b.timestamp - a.timestamp)]. The sort of
    the language is stable, so its result is the one of inserting
    each record before the first record that is not newer. *)
Fixpoint insert_newest_first (x : CapturedMedia.t) (l : list CapturedMedia.t)
    : list CapturedMedia.t :=
  match l with
  | [] => [x]
  | y :: rest =>
      if (CapturedMedia.timestamp y <=? CapturedMedia.timestamp x)%Z
      then x :: l
      else y :: insert_newest_first x rest
  end.

Definition sort_newest_first (l : list CapturedMedia.t) : list CapturedMedia.t :=
  foldr insert_newest_first [] l.

(** [loadPersistedMedia], lines 14-61, given the answer of
    [mediaDatabase.getAllMedia()]. The result is the list handed to
    the deferred [reprocessAnalysis] (line 39), if any. The [finally]
    block only clears [isLoading]. *)
Definition loadPersistedMedia (createObjectURL : Blob -> completion jsstring)
    (getAllMedia : completion (list StoredMediaData.t))
    : M (option (list CapturedMedia.t)) :=
  try_catchM
    (storedMedia ← lift getAllMedia;
     match storedMedia with
     | [] => mret None
     | _ :: _ =>
         restoredMedia ← lift (map_throwing (restore createObjectURL) storedMedia);
         let sorted := sort_newest_first restoredMedia in
         _ ← setCapturedMedia (fun _ => sorted);
         mret (Some sorted)
     end)
    (fun _ => mret None).

(** ['photo'] and ['video'] *)
Definition type_name (type : MediaType) : jsstring :=
  match type with
  | Photo => str "photo"
  | Video => str "video"
  end.

(** Line 358 *)
Definition extension (type : MediaType) : jsstring :=
  match type with
  | Photo => str "jpg"
  | Video => str "webm"
  end.

(** [.replace(/[:.]/g, '-')] *)
Definition dash_colons_and_dots (s : jsstring) : jsstring :=
  (fun c => if (c =? 58) || (c =? 46) then 45 else c) <$> s.

(** What [createMediaFromBlob] reads from the platform: the decimal
    text of [Date.now()] at line 347, and [Date.now()] at line 357,
    the text of [Math.random().toString(36).substr(2, 9)], the text
    of [toISOString()] for a time, and [URL.createObjectURL]. *)
Record platform : Type := mkPlatform {
  now_text : jsstring;
  timestamp_now : Z;
  random_text : jsstring;
  toISOString : Z -> jsstring;
  createObjectURL : Blob -> completion jsstring
}.

(** [createMediaFromBlob], lines 346-369. *)
Definition createMediaFromBlob (p : platform) (blob : Blob) (type : MediaType)
    : CapturedMedia.t :=
  let id := type_name type ++ str "_" ++ now_text p ++ str "_" ++ random_text p in
  let url :=
    match createObjectURL p blob with
    | Normal u => u
    | Throw _ => []
    end in
  let timestamp := timestamp_now p in
  let filename :=
    type_name type ++ str "_"
    ++ dash_colons_and_dots (take 19 (toISOString p timestamp))
    ++ str "." ++ extension type in
  CapturedMedia.mk id type url blob timestamp filename None None.

End Hook.

(** ** The inference client ([geminiService]) *)

Module GeminiService.

(** What a [catch] clause receives: an [Error] with its message, or
    another value. *)
Inductive thrown : Type :=
  | ErrorObject (message : jsstring)
  | OtherValue.

(** The outcome of a call into the platform or the SDK. *)
Inductive attempt (A : Type) : Type :=
  | Done (a : A)
  | Thrown (t : thrown).
Arguments Done {A} a.
Arguments Thrown {A} t.

(** The text after the first comma of [s], if there is a comma. *)
Fixpoint after_comma (s : jsstring) : option jsstring :=
  match s with
  | [] => None
  | c :: t => if c =? Ch.comma then Some t else after_comma t
  end.

(** The text before the first comma of [s]. *)
Fixpoint before_comma (s : jsstring) : jsstring :=
  match s with
  | [] => []
  | c :: t => if c =? Ch.comma then [] else c :: before_comma t
  end.

(** [result.split(',')[1]]: the second piece, [None] for
    [undefined]. *)
Definition second_piece (result : jsstring) : option jsstring :=
  before_comma <$> after_comma result.

(** [blobToBase64], given what [FileReader.readAsDataURL] produces:
    the data URL, or the event of [onerror]. *)
Definition blobToBase64 (readAsDataURL : attempt jsstring)
    : attempt (option jsstring) :=
  match readAsDataURL with
  | Done result => Done (second_piece result)
  | Thrown t => Thrown t
  end.

(** [GeminiVideoProcessingOptions] *)
Record options : Type := mkOptions {
  prompt : option jsstring;
  model : option jsstring
}.

(** What is handed to the SDK: the model name for
    [getGenerativeModel], and the prompt and the video part for
    [generateContent]. *)
Record request : Type := mkRequest {
  request_model : jsstring;
  request_prompt : jsstring;
  request_data : option jsstring;
  request_mimeType : jsstring
}.

(** The platform and the SDK, as [processVideo] uses them:
    [getGenerativeModel] for a model name, [readAsDataURL] for the
    blob, [generateContent] followed by [response.text()]. *)
Record sdk : Type := mkSdk {
  getGenerativeModel : jsstring -> attempt unit;
  readAsDataURL : Blob -> attempt jsstring;
  generateContent : request -> attempt jsstring
}.

Definition not_initialized : jsstring :=
  str "Gemini API not initialized. Check your API key configuration.".

Definition default_model : jsstring := str "gemini-1.5-flash".

Definition default_prompt : jsstring :=
  str "Analyze this video and describe what you see in detail.".

(** [a || b] on strings *)
Definition or_else (a : option jsstring) (b : jsstring) : jsstring :=
  if truthy_str a then default [] a else b.

(** The [catch] clause of [processVideo]. *)
Definition failure (t : thrown) : GeminiResult.t :=
  GeminiResult.mk false None
    (Some match t with
          | ErrorObject message => message
          | OtherValue => str "Unknown error occurred"
          end).

(** [processVideo(videoBlob, options)]; [configured] tells whether
    [genAI] is set, [blob_type] is [videoBlob.type]. *)
Definition processVideo (configured : bool) (s : sdk) (blob_type : jsstring)
    (videoBlob : Blob) (o : options) : GeminiResult.t :=
  if negb configured then GeminiResult.mk false None (Some not_initialized)
  else
    let model_name := or_else (model o) default_model in
    match getGenerativeModel s model_name with
    | Thrown t => failure t
    | Done _ =>
        match blobToBase64 (readAsDataURL s videoBlob) with
        | Thrown t => failure t
        | Done base64Data =>
            let request :=
              mkRequest model_name (or_else (prompt o) default_prompt)
                base64Data (or_else (Some blob_type) (str "video/webm")) in
            match generateContent s request with
            | Thrown t => failure t
            | Done text => GeminiResult.mk true (Some text) None
            end
        end
    end.

(** [isConfigured()] *)
Definition isConfigured (configured : bool) : bool := configured.

(** The surroundings of the hook when the inference client is this
    service: the hook calls [processVideo(media.blob, { prompt })]. *)
Definition env_with (configured : bool) (s : sdk) (blob_type : Blob -> jsstring)
    (now : Z) (storeKey : StoredMediaData.t -> jsstring)
    (storeUnavailable : bool) : Controller.env :=
  Controller.mkEnv (isConfigured configured)
    (fun blob prompt =>
       Normal (processVideo configured s (blob_type blob) blob
                 (mkOptions (Some prompt) None)))
    now storeKey storeUnavailable.

End GeminiService.

(** ** [src/components/MediaPreviewModal.tsx] *)

Module Preview.

(** Lines 270-287: what the analysis section says. *)
Inductive status : Type :=
  | Analyzing
  | AnalysisFailed (error : jsstring)
  | RawText (result : jsstring)
  | NoAnalysis.

Definition analysis_status (a : GeminiAnalysis.t) : status :=
  if truthy_bool (GeminiAnalysis.isProcessing a) then Analyzing
  else if truthy_str (GeminiAnalysis.error a)
       then AnalysisFailed (default [] (GeminiAnalysis.error a))
  else if truthy_str (GeminiAnalysis.result a)
       then RawText (default [] (GeminiAnalysis.result a))
  else NoAnalysis.

(** Line 222: the analysis section, shown for a video with an analysis
    and no structure. *)
Definition analysis_section (media : CapturedMedia.t) : option status :=
  match CapturedMedia.type media, CapturedMedia.geminiAnalysis media with
  | Video, Some a =>
      if truthy (GeminiAnalysis.pushupData a) then None
      else Some (analysis_status a)
  | _, _ => None
  end.

(** Lines 169 and 209-216: what stands in the place of the overlay:
    the overlay on the structure, nothing, or the digit a falsy
    number leaves behind. *)
Inductive overlay_slot : Type :=
  | OverlayOn (analysis : json)
  | StrayNumber (n : number)
  | NoOverlay.

Definition overlay (media : CapturedMedia.t) : overlay_slot :=
  match CapturedMedia.type media with
  | Photo => NoOverlay
  | Video =>
      match GeminiAnalysis.pushupData
              (GeminiAnalysis.spread (CapturedMedia.geminiAnalysis media)) with
      | Some v =>
          if js_truthy v then OverlayOn v
          else match v with
               | JNum n => StrayNumber n
               | _ => NoOverlay
               end
      | None => NoOverlay
      end
  end.

End Preview.

(** [o.k] for a value [o] that may be [undefined]. *)
Definition get_from (o : option json) (k : jsstring) : completion (option json) :=
  match o with
  | Some v => get v k
  | None => Throw TypeError
  end.

(** Lines 109, 119 and 129 of the overlay, on the tree the parser
    returned: [analysis.summary.totalCount],
    [analysis.quality.overallScore],
    [analysis.summary.averageRepsPerMinute], in this order. *)
Definition summary_cards (analysis : json)
    : completion (option json * option json * option json) :=
  summary ← get analysis (str "summary");
  totalCount ← get_from summary (str "totalCount");
  quality ← get analysis (str "quality");
  overallScore ← get_from quality (str "overallScore");
  summary' ← get analysis (str "summary");
  rate ← get_from summary' (str "averageRepsPerMinute");
  Normal (totalCount, overallScore, rate).

(** A timeline as a recording of consecutive reps: from one entry to
    the next the number goes up by one and the time goes up. *)
Definition consecutive (timeline : list Overlay.RepEvent) : Prop :=
  forall i x y, timeline !! i = Some x -> timeline !! S i = Some y ->
    Overlay.repNumber y = (Overlay.repNumber x + 1)%Z
    /\ (Overlay.timestampSeconds x < Overlay.timestampSeconds y)%Q.

(** All code units are white space. *)
Definition blank (s : jsstring) : Prop := Forall (fun c => is_space c = true) s.

(** The records without their analysis. *)
Definition without_analysis (m : CapturedMedia.t) : CapturedMedia.t :=
  CapturedMedia.with_geminiAnalysis m None.

(** [y] is not newer than [x]. *)
Definition not_newer (x y : CapturedMedia.t) : Prop :=
  (CapturedMedia.timestamp y <= CapturedMedia.timestamp x)%Z.

(** Newest first: no record is newer than one before it. *)
Definition newest_first (l : list CapturedMedia.t) : Prop :=
  StronglySorted not_newer l.

(** The records of [l] with a given time, in their order. *)
Definition taken_at (ts : Z) (l : list CapturedMedia.t) : list CapturedMedia.t :=
  filter (fun m => CapturedMedia.timestamp m = ts) l.

(** Two records of the same capture: all but the analysis and the
    storage key agree. *)
Definition same_capture (a b : CapturedMedia.t) : Prop :=
  CapturedMedia.id a = CapturedMedia.id b
  /\ CapturedMedia.type a = CapturedMedia.type b
  /\ CapturedMedia.url a = CapturedMedia.url b
  /\ CapturedMedia.blob a = CapturedMedia.blob b
  /\ CapturedMedia.timestamp a = CapturedMedia.timestamp b
  /\ CapturedMedia.filename a = CapturedMedia.filename b.

(** No object is open on the stack. *)
Definition array_frames (stk : list JSON.frame) : Prop :=
  Forall (fun f => match f with JSON.FArr _ => True | JSON.FObj _ _ => False end) stk.

(** A parser state that no [{] has contributed to. *)
Definition brace_free (st : JSON.pstate) : Prop :=
  match st with
  | JSON.PValue stk | JSON.PArrFirst stk | JSON.PArrNext _ stk => array_frames stk
  | JSON.PDone (JObj _) => False
  | JSON.PDone _ => True
  | _ => False
  end.

(** * Properties of the text normalisation *)

Section Text.

Implicit Types (s a t p : jsstring) (c x : char) (m : matcher).

Lemma prefixb_barrier p c a t :
  c ∉ p -> prefixb p (a ++ c :: t) = prefixb p (a ++ [c]).
Proof.
  revert a. induction p as [|x p IH]; intros a Hc; [by destruct a|].
  apply not_elem_of_cons in Hc as [Hx Hp].
  destruct a as [|y a]; simpl.
  - assert ((x =? c) = false) as -> by (apply N.eqb_neq; congruence). done.
  - by rewrite IH.
Qed.

Lemma prefixb_spec p s : prefixb p s = true <-> exists r, s = p ++ r.
Proof.
  revert s. induction p as [|x p IH]; intros s; simpl.
  - split; eauto.
  - destruct s as [|y s]; simpl.
    + split; [done|]. by intros [r ?].
    + rewrite andb_true_iff, N.eqb_eq, IH. split.
      * intros [-> [r ->]]. eauto.
      * intros [r [= -> ->]]. eauto.
Qed.

Lemma prefixb_barrier_inv p c a t :
  c ∉ p -> prefixb p (a ++ c :: t) = true -> exists r, a = p ++ r.
Proof.
  revert a. induction p as [|x p IH]; intros a Hc; simpl; [eauto|].
  apply not_elem_of_cons in Hc as [Hx Hp].
  destruct a as [|y a]; simpl; rewrite andb_true_iff, N.eqb_eq.
  - intros [-> _]. done.
  - intros [-> H]. destruct (IH _ Hp H) as [r ->]. eauto.
Qed.

Lemma eqb_str_barrier p c a t : c ∉ p -> eqb_str p (a ++ c :: t) = false.
Proof.
  revert a. induction p as [|x p IH]; intros a Hc; [by destruct a|].
  apply not_elem_of_cons in Hc as [Hx Hp].
  destruct a as [|y a]; simpl.
  - assert ((x =? c) = false) as -> by (apply N.eqb_neq; congruence). done.
  - by rewrite IH, andb_false_r.
Qed.

(** A code unit outside a list is outside every list made of its
    elements. *)
Lemma not_elem_of_sub c (l l' : list char) :
  Forall (fun x => x ∈ l) l' -> c ∉ l -> c ∉ l'.
Proof. intros Hsub Hc Hin. apply Hc. by apply (proj1 (Forall_forall _ _) Hsub). Qed.

Ltac sub_alphabet H :=
  apply (fun Hsub => not_elem_of_sub _ _ _ Hsub H);
  by apply (bool_decide_unpack _).

Lemma replace_go_elem m s : forall skip st x,
  x ∈ replace_go m skip st s -> x ∈ s.
Proof.
  induction s as [|c s IH]; intros skip st x; simpl; [done|].
  destruct skip as [|k].
  - destruct (m st (c :: s)) as [[|n]|]; rewrite ?elem_of_cons;
      intros H; try (destruct H as [->|H]; [by left|]); right; eauto.
  - rewrite elem_of_cons. eauto.
Qed.

Lemma keep_head (y : char) (X a : list char) :
  (forall x, x ∈ X -> x ∈ a) -> forall x, x ∈ y :: X -> x ∈ y :: a.
Proof. intros H x [->|Hx]%elem_of_cons; [by left|right; auto]. Qed.

Lemma drop_head (y : char) (X a : list char) :
  (forall x, x ∈ X -> x ∈ a) -> forall x, x ∈ X -> x ∈ y :: a.
Proof. intros H x Hx. right. auto. Qed.

(** Replacement works on the two sides of a barrier independently. *)
Lemma replace_go_barrier m c : barrier m c ->
  forall a skip st, (skip <= length a)%nat ->
  exists X, (forall x, x ∈ X -> x ∈ a) /\
    forall t, replace_go m skip st (a ++ c :: t)
              = X ++ c :: replace_go m 0%nat false t.
Proof.
  intros [Hctx Hlen]. induction a as [|y a IH]; intros skip st Hskip.
  - exists []. split; [done|]. intros t. simpl in *.
    assert (skip = 0%nat) as -> by lia.
    specialize (Hctx st [] t). specialize (Hlen st []). simpl in *.
    rewrite Hctx. destruct (m st [c]) as [[|n]|]; try done.
    specialize (Hlen _ eq_refl). lia.
  - destruct skip as [|k].
    + specialize (Hlen st (y :: a)).
      assert (forall t, m st (y :: a ++ c :: t) = m st (y :: a ++ [c])) as Hctx'
        by (intros t; apply (Hctx st (y :: a) t)).
      simpl in Hlen.
      destruct (m st (y :: a ++ [c])) as [[|n]|] eqn:Hm.
      * destruct (IH 0%nat false) as (X & HX & Heq); [lia|].
        exists (y :: X). split; [by apply keep_head|]. intros t.
        simpl. rewrite Hctx', Heq. done.
      * specialize (Hlen _ eq_refl).
        destruct (IH n false) as (X & HX & Heq); [lia|].
        exists X. split; [by apply drop_head|]. intros t.
        simpl. rewrite Hctx', Heq. done.
      * destruct (IH 0%nat false) as (X & HX & Heq); [lia|].
        exists (y :: X). split; [by apply keep_head|]. intros t.
        simpl. rewrite Hctx', Heq. done.
    + simpl in Hskip. destruct (IH k false) as (X & HX & Heq); [lia|].
      exists X. split; [by apply drop_head|]. intros t. simpl. by rewrite Heq.
Qed.

Lemma re_fence_any_barrier c : c ∉ fence_any_alphabet -> barrier re_fence_any c.
Proof.
  intros Hc.
  assert (c ∉ fence_json ++ [Ch.lf]) as H1 by done.
  assert (c ∉ fence_json) as H2 by sub_alphabet Hc.
  assert (c ∉ Ch.lf :: fence) as H3 by sub_alphabet Hc.
  assert (c ∉ fence) as H4 by sub_alphabet Hc.
  split.
  - intros st a t. unfold re_fence_any.
    by rewrite (prefixb_barrier _ c a t H1), (prefixb_barrier _ c a t H2),
      (prefixb_barrier _ c a t H3), (prefixb_barrier _ c a t H4).
  - intros st a n. unfold re_fence_any.
    repeat match goal with
    | |- context [prefixb ?p (a ++ [c])] =>
        let H := fresh in
        destruct (prefixb p (a ++ [c])) eqn:H;
        [apply prefixb_barrier_inv in H as [r ->]; [|done];
         intros [= <-]; rewrite length_app; simpl; lia|]
    end. done.
Qed.

Lemma re_fence_edge_barrier c : c ∉ Ch.lf :: fence -> barrier re_fence_edge c.
Proof.
  intros Hc.
  assert (c ∉ fence ++ [Ch.lf]) as H1 by sub_alphabet Hc.
  assert (c ∉ fence) as H2 by sub_alphabet Hc.
  split.
  - intros st a t. unfold re_fence_edge.
    rewrite (prefixb_barrier _ c a t H1), (prefixb_barrier _ c a t H2).
    by rewrite (eqb_str_barrier _ c a t Hc), (eqb_str_barrier _ c a t H2),
      (eqb_str_barrier _ c a [] Hc), (eqb_str_barrier _ c a [] H2).
  - intros st a n. unfold re_fence_edge.
    rewrite (eqb_str_barrier _ c a [] Hc), (eqb_str_barrier _ c a [] H2).
    repeat match goal with
    | |- context [prefixb ?p (a ++ [c])] =>
        let H := fresh in
        destruct (prefixb p (a ++ [c])) eqn:H;
        [apply prefixb_barrier_inv in H as [r ->]; [|done];
         rewrite ?andb_true_r, ?andb_false_r; destruct st; try done;
         intros [= <-]; rewrite length_app; simpl; lia|]
    end. by rewrite !andb_false_r.
Qed.

Lemma trimStart_elem s x : x ∈ trimStart s -> x ∈ s.
Proof.
  induction s as [|c s IH]; simpl; [done|].
  destruct (is_space c); [|done]. intros H. right. eauto.
Qed.

Lemma trimEnd_elem s x : x ∈ trimEnd s -> x ∈ s.
Proof.
  unfold trimEnd. rewrite !list_elem_of_In, <- in_rev, <- list_elem_of_In.
  intros H%trimStart_elem. by rewrite list_elem_of_In, <- in_rev in H.
Qed.

Lemma trimStart_barrier a c t :
  is_space c = false -> trimStart (a ++ c :: t) = trimStart a ++ c :: t.
Proof.
  intros Hc. induction a as [|y a IH]; simpl; [by rewrite Hc|].
  by destruct (is_space y).
Qed.

Lemma trimEnd_barrier a c t :
  is_space c = false -> trimEnd (a ++ c :: t) = a ++ c :: trimEnd t.
Proof.
  intros Hc. unfold trimEnd.
  rewrite rev_app_distr. simpl. rewrite <- app_assoc. simpl.
  rewrite trimStart_barrier by done.
  rewrite rev_app_distr. simpl. rewrite rev_involutive, <- app_assoc. done.
Qed.

Lemma trim_decorated pre body post :
  trim (pre ++ Ch.lbrace :: body ++ Ch.rbrace :: post)
  = trimStart pre ++ Ch.lbrace :: body ++ Ch.rbrace :: trimEnd post.
Proof.
  unfold trim. rewrite trimStart_barrier by done.
  replace (trimStart pre ++ Ch.lbrace :: body ++ Ch.rbrace :: post)
    with ((trimStart pre ++ Ch.lbrace :: body) ++ Ch.rbrace :: post)
    by (by rewrite <- app_assoc).
  rewrite trimEnd_barrier by done. by rewrite <- app_assoc.
Qed.

Lemma strip_json_tag_barrier a c t :
  is_space c = false -> c ∉ str "json" ->
  exists X, (forall x, x ∈ X -> x ∈ a) /\
    strip_json_tag (a ++ c :: t) = X ++ c :: t.
Proof.
  intros Hsp Hc. unfold strip_json_tag.
  destruct (prefixb (str "json") (a ++ c :: t)) eqn:Hp.
  - apply prefixb_barrier_inv in Hp as [r ->]; [|done].
    exists (trimStart r). split.
    + intros x Hx%trimStart_elem. apply elem_of_app. by right.
    + by rewrite <- trimStart_barrier.
  - by exists a.
Qed.

Lemma through_last_rbrace_none t :
  Ch.rbrace ∉ t -> through_last_rbrace t = None.
Proof.
  induction t as [|c t IH]; [done|]. intros [Hc Ht]%not_elem_of_cons.
  simpl. rewrite IH by done.
  assert ((c =? Ch.rbrace) = false) as -> by (apply N.eqb_neq; congruence).
  done.
Qed.

Lemma through_last_rbrace_barrier a t :
  Ch.rbrace ∉ t ->
  through_last_rbrace (a ++ Ch.rbrace :: t) = Some (a ++ [Ch.rbrace]).
Proof.
  intros Ht. induction a as [|y a IH]; simpl.
  - by rewrite through_last_rbrace_none.
  - by rewrite IH.
Qed.

Lemma match_braces_decorated a body t :
  Ch.lbrace ∉ a -> Ch.rbrace ∉ t ->
  match_braces (a ++ Ch.lbrace :: body ++ Ch.rbrace :: t)
  = Some (Ch.lbrace :: body ++ [Ch.rbrace]).
Proof.
  intros Ha Ht. induction a as [|y a IH]; simpl.
  - by rewrite through_last_rbrace_barrier.
  - apply not_elem_of_cons in Ha as [Hy Ha].
    assert ((y =? Ch.lbrace) = false) as -> by (apply N.eqb_neq; congruence).
    auto.
Qed.

Lemma fence_free_tail y s : fence_free (y :: s) -> fence_free s.
Proof. intros H a b ->. by apply (H (y :: a) b). Qed.

(** No fence starts inside a fence-free text that a barrier follows. *)
Lemma re_fence_any_fence_free st a c t :
  fence_free a -> c ∉ fence_any_alphabet ->
  re_fence_any st (a ++ c :: t) = None.
Proof.
  intros Hfree Hc.
  assert (c ∉ fence_json ++ [Ch.lf]) as H1 by done.
  assert (c ∉ fence_json) as H2 by sub_alphabet Hc.
  assert (c ∉ Ch.lf :: fence) as H3 by sub_alphabet Hc.
  assert (c ∉ fence) as H4 by sub_alphabet Hc.
  unfold re_fence_any.
  destruct (prefixb (fence_json ++ [Ch.lf]) _) eqn:E1.
  { apply prefixb_barrier_inv in E1 as [r ->]; [|done].
    by destruct (Hfree [] (str "json" ++ Ch.lf :: r)). }
  destruct (prefixb fence_json _) eqn:E2.
  { apply prefixb_barrier_inv in E2 as [r ->]; [|done].
    by destruct (Hfree [] (str "json" ++ r)). }
  destruct (prefixb (Ch.lf :: fence) _) eqn:E3.
  { apply prefixb_barrier_inv in E3 as [r ->]; [|done].
    by destruct (Hfree [Ch.lf] r). }
  destruct (prefixb fence _) eqn:E4; [|done].
  apply prefixb_barrier_inv in E4 as [r ->]; [|done].
  by destruct (Hfree [] r).
Qed.

Lemma replace_fence_any_fence_free a c :
  fence_free a -> c ∉ fence_any_alphabet ->
  replace_go re_fence_any 0%nat false (a ++ [c]) = a ++ [c].
Proof.
  intros Hfree Hc. induction a as [|y a IH].
  - pose proof (re_fence_any_fence_free false [] c [] Hfree Hc) as E.
    simpl in *. by rewrite E.
  - pose proof (re_fence_any_fence_free false (y :: a) c [] Hfree Hc) as E.
    simpl in *. rewrite E, IH; [done|]. by eapply fence_free_tail.
Qed.

Lemma re_fence_edge_inner a c t :
  c ∉ Ch.lf :: fence -> re_fence_edge false (a ++ c :: t) = None.
Proof.
  intros Hc. assert (c ∉ fence) as H2 by sub_alphabet Hc.
  unfold re_fence_edge. simpl andb. cbv iota.
  by rewrite (eqb_str_barrier _ c a t Hc), (eqb_str_barrier _ c a t H2).
Qed.

Lemma replace_fence_edge_inner a c :
  c ∉ Ch.lf :: fence ->
  replace_go re_fence_edge 0%nat false (a ++ [c]) = a ++ [c].
Proof.
  intros Hc. induction a as [|y a IH].
  - pose proof (re_fence_edge_inner [] c [] Hc) as E.
    simpl in *. by rewrite E.
  - pose proof (re_fence_edge_inner (y :: a) c [] Hc) as E.
    simpl in *. by rewrite E, IH.
Qed.

Lemma lbrace_not_fence : Ch.lbrace ∉ fence_any_alphabet.
Proof. by apply (bool_decide_unpack _). Qed.

Lemma rbrace_not_fence : Ch.rbrace ∉ fence_any_alphabet.
Proof. by apply (bool_decide_unpack _). Qed.

Lemma lbrace_not_edge : Ch.lbrace ∉ Ch.lf :: fence.
Proof. by apply (bool_decide_unpack _). Qed.

Lemma rbrace_not_edge : Ch.rbrace ∉ Ch.lf :: fence.
Proof. by apply (bool_decide_unpack _). Qed.

Lemma lbrace_not_json : Ch.lbrace ∉ str "json".
Proof. by apply (bool_decide_unpack _). Qed.

(** The text handed to [JSON.parse] for a brace-delimited text inside
    a decoration that has no [{] before it and no [}] after it: the
    braces with the body as the fence removal leaves it, whatever the
    decoration. *)
Lemma candidate_decorated body :
  exists Y, (fence_free body -> Y = body) /\
    forall pre post, Ch.lbrace ∉ pre -> Ch.rbrace ∉ post ->
      candidate (pre ++ Ch.lbrace :: body ++ Ch.rbrace :: post)
      = Ch.lbrace :: Y ++ [Ch.rbrace].
Proof.
  destruct (replace_go_barrier _ _ (re_fence_any_barrier _ rbrace_not_fence)
              body 0%nat false) as (Y1 & _ & HY1); [lia|].
  destruct (replace_go_barrier _ _ (re_fence_edge_barrier _ rbrace_not_edge)
              Y1 0%nat false) as (Y2 & _ & HY2); [lia|].
  exists Y2. split.
  - intros Hfree.
    specialize (HY1 []). specialize (HY2 []). simpl in HY1, HY2.
    rewrite replace_fence_any_fence_free in HY1
      by auto using rbrace_not_fence.
    apply app_inj_tail in HY1 as [<- _].
    rewrite replace_fence_edge_inner in HY2 by auto using rbrace_not_edge.
    by apply app_inj_tail in HY2 as [<- _].
  - intros pre post Hpre Hpost.
    unfold candidate, strip_markdown, replace_all. rewrite trim_decorated.
    destruct (replace_go_barrier _ _ (re_fence_any_barrier _ lbrace_not_fence)
                (trimStart pre) 0%nat true) as (A2 & HA2 & EA2); [lia|].
    rewrite EA2, HY1.
    destruct (replace_go_barrier _ _ (re_fence_edge_barrier _ lbrace_not_edge)
                A2 0%nat true) as (A3 & HA3 & EA3); [lia|].
    rewrite EA3, HY2.
    destruct (strip_json_tag_barrier A3 Ch.lbrace
                (Y2 ++ Ch.rbrace :: replace_go re_fence_edge 0%nat false
                   (replace_go re_fence_any 0%nat false (trimEnd post))))
      as (A4 & HA4 & EA4); [done|apply lbrace_not_json|].
    rewrite EA4.
    rewrite match_braces_decorated; [done| |].
    + intros H. apply Hpre. by apply trimStart_elem, HA2, HA3, HA4.
    + intros H. apply Hpost.
      by apply trimEnd_elem, (replace_go_elem re_fence_any _ 0%nat false),
        (replace_go_elem re_fence_edge _ 0%nat false).
Qed.

End Text.

(** * Properties of [parseAnalysisResult] *)

Section ParserFacts.

(** [parseAnalysisResult] in one equation: the decoded candidate when
    it passes the test of line 22, [null] otherwise. *)
Lemma parseAnalysisResult_spec (s : jsstring) :
  Parser.parseAnalysisResult s
  = Normal match JSON.parse (candidate s) with
           | Normal v => if looks_like_analysis v then Some v else None
           | Throw _ => None
           end.
Proof.
  unfold Parser.parseAnalysisResult, Parser.parse_body.
  destruct (JSON.parse (candidate s)) as [v|e]; [|reflexivity].
  unfold looks_like_analysis, has_truthy.
  destruct v as [| | | | |props]; try reflexivity. cbn.
  destruct (truthy (obj_get (str "summary") props)); [|done]. cbn.
  destruct (truthy (obj_get (str "timeline") props)); [|done]. cbn.
  by destruct (truthy (obj_get (str "insights") props)).
Qed.

Lemma looks_like_analysis_spec (v : json) :
  looks_like_analysis v = true <->
  exists props, v = JObj props /\
    forall k, k ∈ required_keys ->
      exists x, obj_get k props = Some x /\ js_truthy x = true.
Proof.
  unfold looks_like_analysis, has_truthy, required_keys. split.
  - destruct v as [| | | | |props]; try done. cbn.
    rewrite !andb_true_iff. intros [[H1 H2] H3].
    exists props. split; [done|]. intros k Hk.
    repeat (apply elem_of_cons in Hk as [->|Hk]);
      [| | |by apply elem_of_nil in Hk].
    + destruct (obj_get (str "summary") props) as [x|]; simpl in *;
        [by exists x|done].
    + destruct (obj_get (str "timeline") props) as [x|]; simpl in *;
        [by exists x|done].
    + destruct (obj_get (str "insights") props) as [x|]; simpl in *;
        [by exists x|done].
  - intros (props & -> & H). cbn.
    destruct (H (str "summary")) as (x1 & -> & H1);
      [by apply (bool_decide_unpack _)|].
    destruct (H (str "timeline")) as (x2 & -> & H2);
      [by apply (bool_decide_unpack _)|].
    destruct (H (str "insights")) as (x3 & -> & H3);
      [by apply (bool_decide_unpack _)|].
    simpl. by rewrite H1, H2, H3.
Qed.

Lemma looks_like_analysis_key (v : json) (k : jsstring) :
  k ∈ required_keys -> ~ has_key v k -> looks_like_analysis v = false.
Proof.
  intros Hk Hno. destruct (looks_like_analysis v) eqn:E; [|done].
  apply looks_like_analysis_spec in E as (props & -> & H).
  destruct (H k Hk) as (x & Hx & _). destruct Hno. simpl. by rewrite Hx.
Qed.

(** A parsed result is an object, hence truthy. *)
Lemma parseAnalysisResult_truthy (s : jsstring) (v : json) :
  Parser.parseAnalysisResult s = Normal (Some v) -> js_truthy v = true.
Proof.
  rewrite parseAnalysisResult_spec. intros [= H].
  destruct (JSON.parse (candidate s)) as [v'|]; [|done].
  destruct (looks_like_analysis v') eqn:E; [|done].
  injection H as ->. by apply looks_like_analysis_spec in E as (props & -> & _).
Qed.

End ParserFacts.

Section ParserClaims.

Lemma has_fence_free (s : jsstring) : has_fence s = false -> fence_free s.
Proof.
  induction s as [|c s IH]; intros H a b E.
  - by destruct a.
  - change (has_fence (c :: s))
      with (prefixb fence (c :: s) || has_fence s) in H.
    apply orb_false_iff in H as [Hp Hs].
    destruct a as [|y a].
    + assert (prefixb fence (c :: s) = true) as Hp'
        by (apply prefixb_spec; eauto).
      congruence.
    + injection E as -> ->. by apply (IH Hs a b).
Qed.

(** C1, as amended. For every text that starts with [{] and ends with [}]
    (in particular every JSON object text) and every decoration that
    has no [{] before the text and no [}] after it (prose, triple
    backtick fences with or without a language tag), the parser
    answers on the decorated text what it answers on the bare text;
    and when the text has no triple backtick inside and decodes to a
    tree with truthy [summary], [timeline] and [insights], the answer
    is that tree. *)
Theorem parse_decorated (pre body post : jsstring) :
  Ch.lbrace ∉ pre -> Ch.rbrace ∉ post ->
  let bare := Ch.lbrace :: body ++ [Ch.rbrace] in
  Parser.parseAnalysisResult (pre ++ bare ++ post)
  = Parser.parseAnalysisResult bare
  /\ (fence_free body ->
      forall v, JSON.parse bare = Normal v -> looks_like_analysis v = true ->
      Parser.parseAnalysisResult (pre ++ bare ++ post) = Normal (Some v)).
Proof.
  intros Hpre Hpost bare.
  destruct (candidate_decorated body) as (Y & HY & Hcand).
  assert (pre ++ bare ++ post = pre ++ Ch.lbrace :: body ++ Ch.rbrace :: post)
    as Hshape by (unfold bare; simpl; by rewrite <- app_assoc).
  assert (candidate (pre ++ bare ++ post) = Ch.lbrace :: Y ++ [Ch.rbrace])
    as Hdec by (rewrite Hshape; by apply Hcand).
  assert (candidate bare = Ch.lbrace :: Y ++ [Ch.rbrace]) as Hbare
    by (apply (Hcand [] []); apply not_elem_of_nil).
  rewrite !parseAnalysisResult_spec, Hdec, Hbare. split; [done|].
  intros Hfree v Hv Hlooks. rewrite (HY Hfree). fold bare.
  by rewrite Hv, Hlooks.
Qed.

Lemma parse_decorated_witness :
  let pre := jstr "Here is the analysis you asked for:
```json
" in
  let body := jstr "'summary':{'totalCount':2},'timeline':[{'repNumber':1}],'insights':{'strengths':[]}" in
  let post := jstr "
```
Keep your back straight!" in
  exists v, JSON.parse (Ch.lbrace :: body ++ [Ch.rbrace]) = Normal v /\
    Parser.parseAnalysisResult (pre ++ (Ch.lbrace :: body ++ [Ch.rbrace]) ++ post)
    = Normal (Some v).
Proof.
  intros pre body post. eexists. split.
  - vm_compute. reflexivity.
  - apply (proj2 (parse_decorated pre body post
                    ltac:(by apply (bool_decide_unpack _))
                    ltac:(by apply (bool_decide_unpack _)))).
    + apply has_fence_free. vm_compute. reflexivity.
    + vm_compute. reflexivity.
    + vm_compute. reflexivity.
Defined.

(** C1 as stated fails: prose that mentions a brace before the JSON
    makes the parser answer [null] for a report it accepts when
    bare; and a triple backtick inside a JSON string is removed, so
    the answer is not the tree the bare JSON decodes to. *)
Lemma parse_decorated_counterexample :
  let bare := jstr "{'summary':{'totalCount':2},'timeline':[],'insights':{}}" in
  let fenced := jstr "{'summary':{'duration':'```'},'timeline':[],'insights':{}}" in
  (exists v, JSON.parse bare = Normal v /\ looks_like_analysis v = true /\
     Parser.parseAnalysisResult bare = Normal (Some v) /\
     Parser.parseAnalysisResult (jstr "Counted reps {valid only}: " ++ bare)
     = Normal None)
  /\ (exists v, JSON.parse fenced = Normal v /\ looks_like_analysis v = true /\
        Parser.parseAnalysisResult (jstr "Report: " ++ fenced) <> Normal (Some v)).
Proof.
  split.
  - eexists. split; [vm_compute; reflexivity|]. by vm_compute.
  - eexists. split; [vm_compute; reflexivity|]. by vm_compute.
Qed.

(** C2, as amended. The parser returns a tree exactly when the
    candidate text decodes to an object whose [summary], [timeline]
    and [insights] properties are all truthy, and it then returns
    that very tree, whatever else it holds: no field is inspected any
    further. Presence of the keys is not enough: when one of the
    three is present with a falsy value ([null], [false], a zero, the
    empty string) the parser answers [null], as it does for a missing
    key. *)
Theorem parse_returns_tree (s : jsstring) :
  (forall props,
     JSON.parse (candidate s) = Normal (JObj props) ->
     (forall k, k ∈ required_keys ->
        exists x, obj_get k props = Some x /\ js_truthy x = true) ->
     Parser.parseAnalysisResult s = Normal (Some (JObj props)))
  /\ (forall v,
        Parser.parseAnalysisResult s = Normal (Some v) ->
        JSON.parse (candidate s) = Normal v
        /\ exists props,
             v = JObj props
             /\ forall k, k ∈ required_keys ->
                  exists x, obj_get k props = Some x /\ js_truthy x = true)
  /\ (forall props k x,
        JSON.parse (candidate s) = Normal (JObj props) ->
        k ∈ required_keys -> obj_get k props = Some x ->
        js_truthy x = false ->
        Parser.parseAnalysisResult s = Normal None)
  /\ (forall props k,
        JSON.parse (candidate s) = Normal (JObj props) ->
        k ∈ required_keys -> obj_get k props = None ->
        Parser.parseAnalysisResult s = Normal None)
  /\ (forall x,
        js_truthy x = false
        <-> x = JNull \/ x = JBool false
            \/ (exists n, x = JNum n /\ num_is_zero n = true)
            \/ x = JStr []).
Proof.
  split; [|split; [|split; [|split]]].
  - intros props Hparse Hkeys. rewrite parseAnalysisResult_spec, Hparse.
    assert (looks_like_analysis (JObj props) = true) as ->; [|done].
    apply looks_like_analysis_spec. eauto.
  - intros v. rewrite parseAnalysisResult_spec. intros [= H].
    destruct (JSON.parse (candidate s)) as [v'|]; [|done].
    destruct (looks_like_analysis v') eqn:E; [|done].
    injection H as ->. split; [done|].
    by apply looks_like_analysis_spec.
  - intros props k x Hparse Hk Hx Hfalsy.
    rewrite parseAnalysisResult_spec, Hparse.
    destruct (looks_like_analysis (JObj props)) eqn:E; [|done].
    apply looks_like_analysis_spec in E as (props' & [= <-] & Hall).
    destruct (Hall k Hk) as (x' & Hx' & Htruthy). congruence.
  - intros props k Hparse Hk Hx.
    rewrite parseAnalysisResult_spec, Hparse.
    destruct (looks_like_analysis (JObj props)) eqn:E; [|done].
    apply looks_like_analysis_spec in E as (props' & [= <-] & Hall).
    destruct (Hall k Hk) as (x' & Hx' & Htruthy). congruence.
  - intros x. split.
    + destruct x as [|b|n|t| |]; simpl; [auto| | | |done|done].
      * intros ->. auto.
      * intros Hn%negb_false_iff. right. right. left. by exists n.
      * intros Ht%negb_false_iff%bool_decide_eq_true. subst. auto.
    + intros [-> | [-> | [[n [-> Hn]] | ->]]]; simpl; try done.
      by rewrite Hn.
Qed.

(** Malformed nested data goes through: a string for [summary], a
    number for [timeline], an array for [insights]; and a [timeline]
    that is present but [null] gives [null]. *)
Lemma parse_returns_tree_witness :
  let s := jstr "Result: {'summary':'two','timeline':7,'insights':[null],'extra':false} done" in
  let s' := jstr "{'summary':{'totalCount':1},'timeline':null,'insights':0}" in
  Parser.parseAnalysisResult s
  = Normal (Some (JObj [(str "summary", JStr (str "two"));
                        (str "timeline", JNum (mkNumber false 7 0));
                        (str "insights", JArr [JNull]);
                        (str "extra", JBool false)]))
  /\ Parser.parseAnalysisResult s' = Normal None.
Proof.
  intros s s'. split.
  - apply (proj1 (parse_returns_tree s)).
    + vm_compute. reflexivity.
    + intros k Hk. unfold required_keys in Hk.
      repeat (apply elem_of_cons in Hk as [->|Hk]);
        [| | |by apply elem_of_nil in Hk];
        eexists; (split; [vm_compute; reflexivity|reflexivity]).
  - eapply (proj1 (proj2 (proj2 (parse_returns_tree s'))) _ (str "timeline") JNull).
    + vm_compute. reflexivity.
    + by apply (bool_decide_unpack _).
    + vm_compute. reflexivity.
    + reflexivity.
Defined.

(** C2 as stated fails: all three keys are present, the text decodes,
    and the parser answers [null], because [summary] is [0]. *)
Lemma parse_returns_tree_counterexample :
  let s := jstr "{'summary':0,'timeline':[],'insights':{}}" in
  exists v, JSON.parse (candidate s) = Normal v
    /\ Forall (has_key v) required_keys
    /\ Parser.parseAnalysisResult s = Normal None.
Proof.
  eexists. split; [vm_compute; reflexivity|]. split; [|by vm_compute].
  repeat constructor; by eexists.
Qed.

(** C3. The parser never throws: it answers for every input. It
    answers [null] whenever [JSON.parse] rejects the candidate text
    and whenever the decoded value lacks one of [summary],
    [timeline], [insights] (not being an object at all included). *)
Theorem parse_absent_never_raises (s : jsstring) :
  (exists r, Parser.parseAnalysisResult s = Normal r)
  /\ (forall e, JSON.parse (candidate s) = Throw e ->
      Parser.parseAnalysisResult s = Normal None)
  /\ (forall v k, JSON.parse (candidate s) = Normal v ->
      k ∈ required_keys -> ~ has_key v k ->
      Parser.parseAnalysisResult s = Normal None).
Proof.
  rewrite parseAnalysisResult_spec. split; [eauto|]. split.
  - by intros e ->.
  - intros v k -> Hk Hno. by rewrite (looks_like_analysis_key v k).
Qed.

Lemma parse_absent_never_raises_witness :
  Parser.parseAnalysisResult (jstr "I could not see any pushups in this video.")
  = Normal None
  /\ Parser.parseAnalysisResult (jstr "```json
{'summary':{'totalCount':3},'timeline':[]}
```") = Normal None
  /\ Parser.parseAnalysisResult (jstr "null") = Normal None.
Proof.
  split; [|split].
  - eapply (proj1 (proj2 (parse_absent_never_raises _)) SyntaxError).
    vm_compute. reflexivity.
  - eapply (proj2 (proj2 (parse_absent_never_raises _)) _ (str "insights")).
    + vm_compute. reflexivity.
    + by apply (bool_decide_unpack _).
    + intros [x Hx]. vm_compute in Hx. discriminate.
  - eapply (proj2 (proj2 (parse_absent_never_raises _)) _ (str "summary")).
    + vm_compute. reflexivity.
    + by apply (bool_decide_unpack _).
    + intros [].
Defined.

End ParserClaims.

(** * Properties of [reprocessAnalysis] *)

Section ReprocessFacts.

Context {State : Type} (cb : jsstring -> json -> State -> State).

Lemma recovered_cons (item : CapturedMedia.t) (rest : list CapturedMedia.t) :
  recovered (item :: rest)
  = match recovered_from item with
    | Some u => u :: recovered rest
    | None => recovered rest
    end.
Proof. reflexivity. Qed.

Lemma loop_spec (media : list CapturedMedia.t) : forall n st,
  Reprocess.loop cb media n st
  = (Normal (n + length (recovered media))%nat,
     foldl (fun s u => cb u.1 u.2 s) st (recovered media)).
Proof.
  induction media as [|item rest IH]; intros n st.
  - simpl. by rewrite Nat.add_0_r.
  - rewrite recovered_cons. unfold recovered_from. simpl.
    destruct (Reprocess.needs_parsing item); [|apply IH].
    destruct (Parser.parseAnalysisResult (Reprocess.raw_text item))
      as [[d|]|e] eqn:E; simpl.
    + destruct (js_truthy d); simpl; rewrite IH; [|done].
      by rewrite Nat.add_succ_r.
    + apply IH.
    + by rewrite parseAnalysisResult_spec in E.
Qed.

Lemma recovered_filter (media : list CapturedMedia.t) :
  recovered (filter (fun m => Reprocess.needs_parsing m = true) media)
  = recovered media.
Proof.
  induction media as [|item rest IH]; [done|].
  rewrite filter_cons, (recovered_cons item rest). case_decide as Hn.
  - by rewrite recovered_cons, IH.
  - rewrite IH. unfold recovered_from.
    by destruct (Reprocess.needs_parsing item).
Qed.

End ReprocessFacts.

Section Idempotence.

Lemma recover_all_cons u us m : recover_all (u :: us) m = recover_all us (recover_one u m).
Proof. reflexivity. Qed.

Lemma apply_pushupData_foldl us : forall prev,
  foldl (fun s u => Controller.apply_pushupData u.1 u.2 s) prev us
  = recover_all us <$> prev.
Proof.
  induction us as [|u us IH]; intros prev.
  - simpl. by rewrite list_fmap_id.
  - change (foldl (fun s u => Controller.apply_pushupData u.1 u.2 s)
              (Controller.apply_pushupData u.1 u.2 prev) us
            = recover_all (u :: us) <$> prev).
    rewrite IH. unfold Controller.apply_pushupData.
    rewrite <- list_fmap_compose. done.
Qed.

Lemma recover_all_id us : forall m, CapturedMedia.id (recover_all us m) = CapturedMedia.id m.
Proof.
  induction us as [|u us IH]; intros m; [done|].
  rewrite recover_all_cons, IH. unfold recover_one. by case_decide.
Qed.

Lemma recover_all_other us : forall m,
  CapturedMedia.id m ∉ us.*1 -> recover_all us m = m.
Proof.
  induction us as [|u us IH]; intros m Hm; [done|].
  rewrite fmap_cons, not_elem_of_cons in Hm. destruct Hm as [Hu Hus].
  rewrite recover_all_cons. unfold recover_one. rewrite decide_False by done. by apply IH.
Qed.

Lemma recover_all_parsed_keep us : forall m,
  Forall (fun u => js_truthy u.2 = true) us -> has_structure m -> has_structure (recover_all us m).
Proof.
  induction us as [|u us IH]; intros m Hall Hm; [done|].
  apply Forall_cons in Hall as [Hu Hall]. rewrite recover_all_cons.
  apply IH; [done|]. unfold recover_one. case_decide; [|done]. by eexists.
Qed.

Lemma recover_all_parsed us : forall m,
  Forall (fun u => js_truthy u.2 = true) us ->
  CapturedMedia.id m ∈ us.*1 -> has_structure (recover_all us m).
Proof.
  induction us as [|u us IH]; intros m Hall Hm.
  - by apply elem_of_nil in Hm.
  - apply Forall_cons in Hall as [Hu Hall]. rewrite recover_all_cons.
    destruct (decide (CapturedMedia.id m = u.1)) as [Heq|Hne].
    + apply recover_all_parsed_keep; [done|]. unfold recover_one.
      rewrite decide_True by done. by eexists.
    + unfold recover_one. rewrite decide_False by done. apply IH; [done|].
      rewrite fmap_cons in Hm. apply elem_of_cons in Hm as [?|?]; done.
Qed.

Lemma has_structure_not_needs_parsing m : has_structure m -> Reprocess.needs_parsing m = false.
Proof.
  intros (a & Ha & Hp). unfold Reprocess.needs_parsing.
  rewrite Ha, Hp. simpl. by rewrite andb_false_r, andb_false_r.
Qed.

Lemma recovered_truthy media :
  Forall (fun u => js_truthy u.2 = true) (recovered media).
Proof.
  apply Forall_forall. intros u (item & _ & Hu)%list_elem_of_omap.
  unfold recovered_from in Hu.
  destruct (Reprocess.needs_parsing item); [|done].
  destruct (Parser.parseAnalysisResult _) as [[d|]|]; try done.
  destruct (js_truthy d) eqn:E; [|done]. by injection Hu as <-.
Qed.

Lemma recovered_fmap_nil (f : CapturedMedia.t -> CapturedMedia.t) media :
  (forall item, item ∈ media -> recovered_from (f item) = None) ->
  recovered (f <$> media) = [].
Proof.
  induction media as [|item rest IH]; intros H; [done|].
  rewrite fmap_cons, recovered_cons, H by left.
  apply IH. intros. apply H. by right.
Qed.

(** After a run nothing is left to recover. *)
Lemma recovered_after_run media :
  recovered (recover_all (recovered media) <$> media) = [].
Proof.
  apply recovered_fmap_nil.
  { intros item Hitem.
    destruct (decide (CapturedMedia.id item ∈ (recovered media).*1)) as [Hin|Hout].
    - unfold recovered_from.
      by rewrite has_structure_not_needs_parsing
        by (apply recover_all_parsed; auto using recovered_truthy).
    - rewrite recover_all_other by done.
      destruct (recovered_from item) as [u|] eqn:Hu; [|done].
      destruct Hout. apply list_elem_of_fmap. exists u. split.
      + unfold recovered_from in Hu.
        destruct (Reprocess.needs_parsing item); [|done].
        destruct (Parser.parseAnalysisResult _) as [[d|]|]; try done.
        destruct (js_truthy d); [|done]. by injection Hu as <-.
      + apply list_elem_of_omap. eauto. }
Qed.

(** C7. [reprocessAnalysis] calls the callback exactly for the video
    records that have a stored text, no structure and are not
    pending, and whose text now parses, in order, and returns their
    number; records that fail the guard of lines 48-51 have no
    influence on the run (the parser is not consulted for them). The
    only effects are those of the callback: the function has no
    access to the inference client. A second run over the records
    the first run leaves, with any callback, updates nothing and
    returns 0. *)
Theorem reprocess_idempotent (media : list CapturedMedia.t) :
  (forall (State : Type) (cb : jsstring -> json -> State -> State) (st : State),
     Reprocess.reprocessAnalysis cb media st
     = (Normal (length (recovered media)),
        foldl (fun s u => cb u.1 u.2 s) st (recovered media))
     /\ Reprocess.reprocessAnalysis cb
          (filter (fun m => Reprocess.needs_parsing m = true) media) st
        = Reprocess.reprocessAnalysis cb media st)
  /\ (forall (State : Type) (cb : jsstring -> json -> State -> State) (st : State),
        let media' :=
          snd (Reprocess.reprocessAnalysis Controller.apply_pushupData
                 media media) in
        Reprocess.reprocessAnalysis cb media' st = (Normal 0%nat, st)).
Proof.
  split.
  - intros State cb st. unfold Reprocess.reprocessAnalysis.
    by rewrite !loop_spec, recovered_filter.
  - intros State cb st. unfold Reprocess.reprocessAnalysis.
    rewrite !loop_spec. simpl.
    by rewrite apply_pushupData_foldl, recovered_after_run.
Qed.

End Idempotence.

(** * Properties of the capture session controller *)

Section ControllerFacts.

Import Controller.

Implicit Types (e : env) (w : world) (media m : CapturedMedia.t)
  (prev : list CapturedMedia.t) (id : jsstring).

(** An update by id leaves the records with another id in place. *)
Lemma by_id_other (g : CapturedMedia.t -> CapturedMedia.t) id prev i m :
  prev !! i = Some m -> CapturedMedia.id m <> id ->
  ((fun m => if decide (CapturedMedia.id m = id) then g m else m) <$> prev) !! i
  = Some m.
Proof.
  intros Hi Hne. rewrite list_lookup_fmap, Hi. simpl.
  by rewrite decide_False.
Qed.

(** An update by id of a collection without that id changes nothing. *)
Lemma by_id_absent (g : CapturedMedia.t -> CapturedMedia.t) id prev :
  id ∉ CapturedMedia.id <$> prev ->
  (fun m => if decide (CapturedMedia.id m = id) then g m else m) <$> prev = prev.
Proof.
  induction prev as [|m prev IH]; [done|].
  rewrite !fmap_cons, not_elem_of_cons. intros [Hm Hprev].
  rewrite IH by done. by rewrite decide_False.
Qed.

Lemma apply_analysis_other id a prev i m :
  prev !! i = Some m -> CapturedMedia.id m <> id ->
  apply_analysis id a prev !! i = Some m.
Proof. apply by_id_other. Qed.

Lemma mark_processing_failed_other id prev i m :
  prev !! i = Some m -> CapturedMedia.id m <> id ->
  mark_processing_failed id prev !! i = Some m.
Proof. apply by_id_other. Qed.

Lemma apply_pushupData_other id d prev i m :
  prev !! i = Some m -> CapturedMedia.id m <> id ->
  apply_pushupData id d prev !! i = Some m.
Proof. apply by_id_other. Qed.

Lemma apply_analysis_absent id a prev :
  id ∉ CapturedMedia.id <$> prev -> apply_analysis id a prev = prev.
Proof. apply by_id_absent. Qed.

Lemma mark_processing_failed_absent id prev :
  id ∉ CapturedMedia.id <$> prev -> mark_processing_failed id prev = prev.
Proof. apply by_id_absent. Qed.

Lemma apply_pushupData_absent id d prev :
  id ∉ CapturedMedia.id <$> prev -> apply_pushupData id d prev = prev.
Proof. apply by_id_absent. Qed.

(** Every path through [processVideoWithGemini]. *)
Ltac processVideo_paths :=
  unfold processVideoWithGemini, try_catchM, mbind, M_bind, mret, M_ret,
    lift, setCapturedMedia, storeMedia;
  repeat case_match; simplify_eq/=.

Lemma processVideoWithGemini_normal e media w :
  (processVideoWithGemini e media w).1 = Normal ().
Proof. processVideo_paths; by repeat match goal with u : () |- _ => destruct u end. Qed.

Lemma processVideoWithGemini_absent e media w :
  CapturedMedia.id media ∉ CapturedMedia.id <$> capturedMedia w ->
  capturedMedia (processVideoWithGemini e media w).2 = capturedMedia w.
Proof.
  intros Habs. processVideo_paths;
    by rewrite ?apply_analysis_absent, ?mark_processing_failed_absent.
Qed.

Lemma processVideoWithGemini_other e media w i m :
  capturedMedia w !! i = Some m ->
  CapturedMedia.id m <> CapturedMedia.id media ->
  capturedMedia (processVideoWithGemini e media w).2 !! i = Some m.
Proof.
  intros Hi Hne. processVideo_paths;
    auto using apply_analysis_other, mark_processing_failed_other.
Qed.

Lemma removeMedia_normal e id w : (removeMedia e id w).1 = Normal ().
Proof. done. Qed.

Lemma removeMedia_absent e id w :
  id ∉ CapturedMedia.id <$> capturedMedia (removeMedia e id w).2.
Proof.
  simpl. intros (m & -> & Hm)%list_elem_of_fmap.
  by apply list_elem_of_filter in Hm as [Hm _].
Qed.

(** The failure branch, lines 122-139. *)
Lemma processVideoWithGemini_failure e media analysis r w :
  CapturedMedia.type media = Video ->
  CapturedMedia.geminiAnalysis media = Some analysis ->
  processVideo e (CapturedMedia.blob media) (submitted_prompt analysis)
  = Normal r ->
  GeminiResult.success r && truthy_str (GeminiResult.result r) = false ->
  processVideoWithGemini e media w
  = (Normal (),
     mkWorld (apply_analysis (CapturedMedia.id media)
                (errorAnalysis analysis (GeminiResult.error r))
                (capturedMedia w))
       (db w)).
Proof.
  intros Hty Han Hr Hok. unfold processVideoWithGemini.
  rewrite Hty, Han. unfold try_catchM, mbind, M_bind, lift.
  by rewrite Hr, Hok.
Qed.

(** The success branch, lines 86-121, for a record with a storage key
    and a store in order. *)
Lemma processVideoWithGemini_success e media analysis r text w :
  CapturedMedia.type media = Video ->
  CapturedMedia.geminiAnalysis media = Some analysis ->
  processVideo e (CapturedMedia.blob media) (submitted_prompt analysis)
  = Normal r ->
  GeminiResult.success r = true ->
  GeminiResult.result r = Some text -> text <> [] ->
  truthy_str (CapturedMedia.indexedDbId media) = true ->
  storeUnavailable e = false ->
  exists pushupData,
    Parser.parseAnalysisResult text = Normal pushupData /\
    let updated := updatedAnalysis analysis text pushupData in
    processVideoWithGemini e media w
    = (Normal (),
       mkWorld (apply_analysis (CapturedMedia.id media) updated (capturedMedia w))
         (<[storeKey e (stored_data media (Some updated))
            := stored_data media (Some updated)]> (db w))).
Proof.
  intros Hty Han Hr Hok Htext Hne Hkey Hup.
  eexists. split; [apply parseAnalysisResult_spec|].
  unfold processVideoWithGemini.
  rewrite Hty, Han. unfold try_catchM, mbind, M_bind, lift.
  rewrite Hr, Hok, Htext. destruct text as [|c text]; [done|]. simpl.
  rewrite parseAnalysisResult_spec. simpl. rewrite Hkey.
  unfold storeMedia. rewrite Hup. simpl.
  destruct (JSON.parse _) as [v|]; [|done].
  destruct (looks_like_analysis v) eqn:E; [|done]. simpl.
  by apply looks_like_analysis_spec in E as (props & -> & _).
Qed.

(** C4 fails on the code. A pending video with a storage key, an
    inference client that reports [quota exceeded]: the record in
    memory gets [isProcessing = false] and the message, and the store
    is left as it was, still holding the pending annotation. On the
    success path the same record is written to the store. *)
Theorem inference_failure_not_persisted :
  let e := Sample.services (Sample.failing (str "quota exceeded")) false in
  let e' := Sample.services (Sample.answering Sample.report) false in
  let media := Sample.video1_pending e in
  let key := CapturedMedia.id media in
  let pending := pending_analysis e in
  let w0 := mkWorld [media] {[ key := stored_data media (Some pending) ]} in
  let failed := errorAnalysis pending (Some (str "quota exceeded")) in
  processVideoWithGemini e media w0
  = (Normal (),
     mkWorld [CapturedMedia.with_geminiAnalysis media (Some failed)] (db w0))
  /\ GeminiAnalysis.isProcessing failed = Some false
  /\ GeminiAnalysis.error failed = Some (str "quota exceeded")
  /\ (StoredMediaData.geminiAnalysis
        <$> db (processVideoWithGemini e media w0).2 !! key)
     = Some (Some pending)
  /\ GeminiAnalysis.isProcessing pending = Some true
  /\ exists updated,
       (StoredMediaData.geminiAnalysis
          <$> db (processVideoWithGemini e' media w0).2 !! key)
       = Some (Some updated)
       /\ GeminiAnalysis.isProcessing updated = Some false.
Proof.
  intros e e' media key pending w0 failed.
  assert (processVideoWithGemini e media w0
          = (Normal (),
             mkWorld [CapturedMedia.with_geminiAnalysis media (Some failed)]
               (db w0))) as Hfail.
  { rewrite (processVideoWithGemini_failure e media pending
               (GeminiResult.mk false None (Some (str "quota exceeded"))))
      by done.
    reflexivity. }
  split; [done|]. split; [done|]. split; [done|]. split.
  { rewrite Hfail. simpl. by rewrite lookup_singleton_eq. }
  split; [done|].
  destruct (processVideoWithGemini_success e' media pending
              (GeminiResult.mk true (Some Sample.report) None)
              Sample.report w0) as (pushupData & _ & ->); try done.
  eexists. split.
  - simpl. by rewrite lookup_insert_eq.
  - reflexivity.
Qed.

(** C5, as amended. For a video added while inference is available,
    the pending analysis with the structured-report prompt is
    attached before the record is handed to the store. When the
    store accepts it, the record kept in memory carries the analysis
    and the key, and its processing is started. When the store fails,
    the record is still kept in memory, but as it was passed in,
    without the analysis, and no processing is started. *)
Theorem addMedia_video e media w :
  CapturedMedia.type media = Video -> isConfigured e = true ->
  let pending := pending_analysis e in
  let stored := stored_data media (Some pending) in
  let mediaWithId :=
    CapturedMedia.with_indexedDbId
      (CapturedMedia.with_geminiAnalysis media (Some pending))
      (storeKey e stored) in
  GeminiAnalysis.prompt pending = Some analysis_prompt
  /\ GeminiAnalysis.isProcessing pending = Some true
  /\ (storeUnavailable e = false ->
      addMedia e media w
      = (Normal (Some mediaWithId),
         mkWorld (mediaWithId :: capturedMedia w)
           (<[storeKey e stored := stored]> (db w))))
  /\ (storeUnavailable e = true ->
      addMedia e media w
      = (Normal None, mkWorld (media :: capturedMedia w) (db w))).
Proof.
  intros Hty Hconf pending stored mediaWithId.
  split; [done|]. split; [done|].
  unfold addMedia, try_catchM, mbind, M_bind, storeMedia.
  rewrite Hty, Hconf. simpl.
  split; intros ->; done.
Qed.

Lemma addMedia_video_witness :
  let e_up := Sample.services (Sample.answering Sample.report) false in
  let e_down := Sample.services (Sample.answering Sample.report) true in
  let w := mkWorld [Sample.photo1] ∅ in
  capturedMedia (addMedia e_up Sample.video1 w).2
  = [Sample.video1_pending e_up; Sample.photo1]
  /\ capturedMedia (addMedia e_down Sample.video1 w).2
     = [Sample.video1; Sample.photo1].
Proof.
  intros e_up e_down w. split.
  - by rewrite (proj1 (proj2 (proj2 (addMedia_video e_up Sample.video1 w
                                       eq_refl eq_refl))) eq_refl).
  - by rewrite (proj2 (proj2 (proj2 (addMedia_video e_down Sample.video1 w
                                       eq_refl eq_refl))) eq_refl).
Defined.

(** C5 as stated fails: with the store out of order, the video kept
    in memory has no analysis attached. *)
Lemma addMedia_video_counterexample :
  let e := Sample.services (Sample.answering Sample.report) true in
  exists m rest,
    capturedMedia (addMedia e Sample.video1 (mkWorld [] ∅)).2 = m :: rest
    /\ CapturedMedia.type m = Video
    /\ CapturedMedia.geminiAnalysis m = None.
Proof. by exists Sample.video1, []. Qed.

(** C8. The completion of an inference submission never throws. Run
    against a collection that holds no record with the submitted id
    (as after [removeMedia]), it leaves the collection as it is; and
    in any collection the records with another id stay in place,
    unchanged, under the completion and under each of the by-id
    updates of the hook. *)
Theorem completion_after_removal e media :
  (forall w, (processVideoWithGemini e media w).1 = Normal ())
  /\ (forall w,
        CapturedMedia.id media ∉ CapturedMedia.id <$> capturedMedia w ->
        capturedMedia (processVideoWithGemini e media w).2 = capturedMedia w)
  /\ (forall e' w,
        let removal := removeMedia e' (CapturedMedia.id media) w in
        removal.1 = Normal ()
        /\ capturedMedia (processVideoWithGemini e media removal.2).2
           = capturedMedia removal.2)
  /\ (forall w i m,
        capturedMedia w !! i = Some m ->
        CapturedMedia.id m <> CapturedMedia.id media ->
        capturedMedia (processVideoWithGemini e media w).2 !! i = Some m)
  /\ (forall id a d prev i m,
        prev !! i = Some m -> CapturedMedia.id m <> id ->
        apply_analysis id a prev !! i = Some m
        /\ mark_processing_failed id prev !! i = Some m
        /\ apply_pushupData id d prev !! i = Some m).
Proof.
  split; [apply processVideoWithGemini_normal|].
  split; [apply processVideoWithGemini_absent|].
  split.
  { intros e' w removal. split; [done|].
    apply processVideoWithGemini_absent, removeMedia_absent. }
  split; [apply processVideoWithGemini_other|].
  intros id a d prev i m Hi Hne.
  auto using apply_analysis_other, mark_processing_failed_other,
    apply_pushupData_other.
Qed.

Lemma completion_after_removal_witness :
  let e := Sample.services (Sample.answering Sample.report) false in
  let media := Sample.video1_pending e in
  let w := mkWorld [media; Sample.photo1] ∅ in
  let w' := (removeMedia e (CapturedMedia.id media) w).2 in
  capturedMedia w' = [Sample.photo1]
  /\ capturedMedia (processVideoWithGemini e media w').2 = [Sample.photo1]
  /\ capturedMedia (processVideoWithGemini e media w).2 !! 1%nat
     = Some Sample.photo1.
Proof.
  intros e media w w'.
  assert (capturedMedia w' = [Sample.photo1]) as Hw' by done.
  split; [done|]. split.
  - rewrite <- Hw'.
    apply (proj1 (proj2 (completion_after_removal e media)) w').
    rewrite Hw'. by apply (bool_decide_unpack _).
  - apply (proj1 (proj2 (proj2 (proj2 (completion_after_removal e media))))
             w 1%nat Sample.photo1); [done|].
    by apply (bool_decide_unpack _).
Defined.

End ControllerFacts.

(** * Properties of the playback synchronizer *)

Section OverlayFacts.

Import Overlay.

Implicit Types (timeline : list RepEvent) (d : Duration) (t : Q)
  (r : RepEvent) (st : state) (video : Video).

(** [find] answers with the first element that passes the test. *)
Lemma find_first {A} (f : A -> bool) (l : list A) (x : A) :
  List.find f l = Some x ->
  exists l1 l2, l = l1 ++ x :: l2 /\ f x = true
                /\ forall y, y ∈ l1 -> f y = false.
Proof.
  induction l as [|a l IH]; [done|]. simpl.
  destruct (f a) eqn:Ha.
  - intros [= ->]. exists [], l. split; [done|]. split; [done|].
    by intros y ?%elem_of_nil.
  - intros (l1 & l2 & -> & Hx & Hl1)%IH.
    exists (a :: l1), l2. split; [done|]. split; [done|].
    intros y [->|Hy]%elem_of_cons; auto.
Qed.

Lemma find_all_false {A} (f : A -> bool) (l : list A) :
  (forall y, y ∈ l -> f y = false) -> List.find f l = None.
Proof.
  induction l as [|a l IH]; [done|]. intros H. simpl.
  rewrite (H a) by left. apply IH. intros y Hy. apply H. by right.
Qed.

Lemma Qlt_bool_iff (x y : Q) : Qlt_bool x y = true <-> (x < y)%Q.
Proof.
  unfold Qlt_bool. rewrite negb_true_iff. split.
  - intros H. apply Qnot_le_lt. intros Hle%Qle_bool_iff. congruence.
  - intros H. apply not_true_iff_false. rewrite Qle_bool_iff.
    by apply Qlt_not_le.
Qed.

Lemma is_active_spec timeline d t r :
  is_active timeline d t r = true
  <-> (timestampSeconds r <= t)%Q /\ before t (nextTime timeline d r) = true.
Proof. unfold is_active. by rewrite andb_true_iff, Qle_bool_iff. Qed.

(** [find] answers [None] exactly when no element passes the test. *)
Lemma find_none_iff {A} (f : A -> bool) (l : list A) :
  List.find f l = None <-> forall y, y ∈ l -> f y = false.
Proof.
  split; [|apply find_all_false].
  intros H y Hy. apply list_elem_of_In in Hy. by apply (find_none f l).
Qed.

(** [find] answers with [x] exactly when [x] is the first element
    that passes the test. *)
Lemma find_some_iff {A} (f : A -> bool) (l : list A) (x : A) :
  List.find f l = Some x
  <-> exists l1 l2, l = l1 ++ x :: l2 /\ f x = true
                    /\ forall y, y ∈ l1 -> f y = false.
Proof.
  split; [apply find_first|].
  intros (l1 & l2 & -> & Hx & Hl1).
  induction l1 as [|a l1 IH]; simpl.
  - by rewrite Hx.
  - rewrite (Hl1 a) by left. apply IH. intros y Hy. apply Hl1. by right.
Qed.

(** Below [2^53] in magnitude the sum [n + 1] of doubles is exact. *)
Lemma plus_one_exact (n : Z) :
  (Z.abs n < 2 ^ 53)%Z -> plus_one n = (n + 1)%Z.
Proof.
  unfold plus_one, nearest_double, spacing.
  change (2 ^ 53)%Z with 9007199254740992%Z. intros Hn.
  destruct (Z.ltb_spec (Z.abs (n + 1)) 9007199254740992) as [Hlt|Hge].
  - rewrite Z.mod_1_r, Z.div_1_r. simpl. lia.
  - assert (n = 9007199254740991%Z) as -> by lia. reflexivity.
Qed.

(** C6, as amended. The selection is the first timeline entry [r]
    with [timestampSeconds r <= t < upper], and "none" exactly when
    no entry passes this test, in particular when no entry has
    [timestampSeconds <= t]. Here [upper] is the time of the first
    entry whose [repNumber] is [repNumber r + 1] as the code computes
    it, on doubles, looked up by number, or the duration of the video
    when there is none. Below [2^53] in magnitude that sum is the
    number exactly one greater. For the timeline [1 at 0, 2 at 10, 4
    at 30] and duration 40 the selection at 20 and at 35 is rep 2,
    and the interval of rep 4 is [30, 40). *)
Theorem currentRep_spec timeline d t :
  (forall r, currentRep timeline d t = Some r <->
     exists earlier later,
       timeline = earlier ++ r :: later
       /\ (timestampSeconds r <= t)%Q
       /\ before t (nextTime timeline d r) = true
       /\ forall x, x ∈ earlier -> is_active timeline d t x = false)
  /\ (currentRep timeline d t = None
      <-> forall x, x ∈ timeline -> is_active timeline d t x = false)
  /\ (forall x, is_active timeline d t x = true
                <-> (timestampSeconds x <= t)%Q
                    /\ before t (nextTime timeline d x) = true)
  /\ (forall r n, nextRep timeline r = Some n <->
        exists earlier later,
          timeline = earlier ++ n :: later
          /\ repNumber n = plus_one (repNumber r)
          /\ forall x, x ∈ earlier -> repNumber x <> plus_one (repNumber r))
  /\ (forall r, nextRep timeline r = None
                <-> forall x, x ∈ timeline ->
                      repNumber x <> plus_one (repNumber r))
  /\ (forall r n, nextRep timeline r = Some n ->
        nextTime timeline d r = DurationSeconds (timestampSeconds n))
  /\ (forall r, nextRep timeline r = None -> nextTime timeline d r = d)
  /\ (forall n, (Z.abs n < 2 ^ 53)%Z -> plus_one n = (n + 1)%Z)
  /\ (forall u, before t (DurationSeconds u) = true <-> (t < u)%Q)
  /\ before t DurationInfinity = true
  /\ before t DurationNaN = false
  /\ ((forall x, x ∈ timeline -> ~ (timestampSeconds x <= t)%Q) ->
      currentRep timeline d t = None)
  /\ currentRep Sample.sparse Sample.forty 20 = Some (Sample.rep 2 10)
  /\ currentRep Sample.sparse Sample.forty 35 = Some (Sample.rep 2 10)
  /\ (forall t', is_active Sample.sparse Sample.forty t' (Sample.rep 4 30) = true
                 <-> (30 <= t' /\ t' < 40)%Q).
Proof.
  split.
  { intros r. unfold currentRep. rewrite find_some_iff.
    split; intros (l1 & l2 & Heq & H); exists l1, l2; (split; [done|]).
    - destruct H as [[Hlo Hup]%is_active_spec Hfirst]. done.
    - destruct H as (Hlo & Hup & Hfirst). split; [|done].
      by apply is_active_spec. }
  split; [apply find_none_iff|].
  split; [intros x; apply is_active_spec|].
  split.
  { intros r n. unfold nextRep. rewrite find_some_iff.
    split; intros (l1 & l2 & Heq & H); exists l1, l2; (split; [done|]).
    - destruct H as [Hn%Z.eqb_eq Hfirst]. split; [done|].
      intros x Hx. by apply Z.eqb_neq, Hfirst.
    - destruct H as [Hn Hfirst]. split; [by apply Z.eqb_eq|].
      intros x Hx. by apply Z.eqb_neq, Hfirst. }
  split.
  { intros r. unfold nextRep. rewrite find_none_iff.
    split; intros H x Hx; apply Z.eqb_neq; by apply H. }
  split; [by intros r n Hn; unfold nextTime; rewrite Hn|].
  split; [by intros r Hn; unfold nextTime; rewrite Hn|].
  split; [apply plus_one_exact|].
  split; [intros u; apply Qlt_bool_iff|].
  split; [done|]. split; [done|].
  split.
  { intros Hnone. apply find_all_false. intros y Hy.
    apply not_true_iff_false. intros [Hlo _]%is_active_spec.
    by apply (Hnone y). }
  split; [done|]. split; [done|].
  intros t'. rewrite is_active_spec.
  change (nextTime Sample.sparse Sample.forty (Sample.rep 4 30))
    with (DurationSeconds 40).
  simpl. by rewrite Qlt_bool_iff.
Qed.

Lemma currentRep_spec_witness :
  (exists earlier later,
     Sample.sparse = earlier ++ Sample.rep 2 10 :: later
     /\ (timestampSeconds (Sample.rep 2 10) <= 35)%Q
     /\ before 35 (nextTime Sample.sparse Sample.forty (Sample.rep 2 10)) = true
     /\ forall x, x ∈ earlier -> is_active Sample.sparse Sample.forty 35 x = false)
  /\ nextRep Sample.sparse (Sample.rep 2 10) = None
  /\ currentRep Sample.sparse Sample.forty (-1) = None.
Proof.
  pose proof (currentRep_spec Sample.sparse Sample.forty 35)
    as (Hsel & _ & _ & _ & Hnext & _).
  pose proof (currentRep_spec Sample.sparse Sample.forty (-1))
    as (_ & _ & _ & _ & _ & _ & _ & _ & _ & _ & _ & Hlow & _).
  split; [|split].
  - by apply Hsel.
  - apply Hnext. intros x Hx. unfold Sample.sparse in Hx.
    repeat (apply elem_of_cons in Hx as [->|Hx]);
      [done|done|done|by apply elem_of_nil in Hx].
  - apply Hlow. intros x Hx. unfold Sample.sparse in Hx.
    repeat (apply elem_of_cons in Hx as [->|Hx]);
      [| | |by apply elem_of_nil in Hx]; by intros H.
Defined.

(** C6 as stated fails where the sum is not exact. An entry numbered
    [2^53] at time 0, alone in the timeline of a video of 40 seconds:
    no entry has a number one greater, and time 5 lies between 0 and
    the duration, but [2^53 + 1] is [2^53] on doubles, so the entry
    is found as its own successor, its interval is empty and nothing
    is selected. *)
Lemma currentRep_spec_counterexample :
  let r := Sample.rep (2 ^ 53) 0 in
  (forall x, x ∈ [r] -> repNumber x <> (repNumber r + 1)%Z)
  /\ (timestampSeconds r <= 5)%Q
  /\ before 5 Sample.forty = true
  /\ nextRep [r] r = Some r
  /\ currentRep [r] Sample.forty 5 = None.
Proof.
  intros r. split; [|done].
  intros x ->%list_elem_of_singleton. simpl. lia.
Qed.

(** C9. A time update stores the video's time, and selects the active
    rep for the time that was stored before: after any run of updates
    the active rep is the one of the time of the update before the
    last. With the sample
    timeline, starting at 0, the update to time 20 shows rep 1 (the
    rep at time 0) although rep 2 is the one at 20; rep 2 appears
    with the next update. *)
Theorem handleTimeUpdate_lags timeline :
  (forall video st,
     currentTime (handleTimeUpdate timeline video st) = video_currentTime video
     /\ activeRep (handleTimeUpdate timeline video st)
        = repNumber <$> currentRep timeline (duration video) (currentTime st))
  /\ (forall vs v1 v2 st,
        activeRep (play timeline (vs ++ [v1; v2]) st)
        = repNumber <$> currentRep timeline (duration v2) (video_currentTime v1))
  /\ (let at20 := mkVideo 20 Sample.forty in
      let at21 := mkVideo 21 Sample.forty in
      activeRep (play Sample.sparse [at20] initial) = Some 1%Z
      /\ repNumber <$> currentRep Sample.sparse Sample.forty 20 = Some 2%Z
      /\ activeRep (play Sample.sparse [at20; at21] initial) = Some 2%Z).
Proof.
  split; [done|]. split; [|done].
  intros vs v1 v2 st. unfold play. by rewrite fold_left_app.
Qed.

(** C10, as amended. When the selected entry has [repNumber] 0, the
    readout shows the placeholder and the current-rep panel is not
    shown: the bare number 0 is rendered in its place. The timeline
    point of every entry numbered 0 is highlighted, the selected one
    included, so the overlay is not rendered as with no active
    rep. *)
Theorem rep_zero_rendering timeline video st r :
  currentRep timeline (duration video) (currentTime st) = Some r ->
  repNumber r = 0%Z ->
  let st' := handleTimeUpdate timeline video st in
  activeRep st' = Some 0%Z
  /\ rep_readout (render timeline st') = ReadoutPlaceholder
  /\ current_rep_info (render timeline st') = NumberText 0
  /\ (forall i x, timeline !! i = Some x ->
        highlighted (render timeline st') !! i = Some (0 =? repNumber x)%Z)
  /\ (exists i, timeline !! i = Some r
                /\ highlighted (render timeline st') !! i = Some true).
Proof.
  intros Hcur Hzero st'.
  assert (activeRep st' = Some 0%Z) as Hact
    by (unfold st', handleTimeUpdate; simpl; by rewrite Hcur, <- Hzero).
  clearbody st'.
  assert (forall i x, timeline !! i = Some x ->
            highlighted (render timeline st') !! i = Some (0 =? repNumber x)%Z)
    as Hhl.
  { intros i x Hi. unfold render. simpl.
    by rewrite list_lookup_fmap, Hi, Hact. }
  split; [done|].
  split; [unfold render; simpl; by rewrite Hact|].
  split; [unfold render; simpl; by rewrite Hact|].
  split; [done|].
  apply find_some in Hcur as [Hin _].
  apply list_elem_of_In, list_elem_of_lookup in Hin as [i Hi].
  exists i. split; [done|]. by rewrite (Hhl i r Hi), Hzero.
Qed.

Lemma rep_zero_rendering_witness :
  let timeline := [Sample.rep 0 0; Sample.rep 1 10] in
  let st' := handleTimeUpdate timeline (mkVideo 3 Sample.forty) initial in
  rep_readout (render timeline st') = ReadoutPlaceholder
  /\ current_rep_info (render timeline st') = NumberText 0.
Proof.
  intros timeline st'.
  destruct (rep_zero_rendering timeline (mkVideo 3 Sample.forty) initial
              (Sample.rep 0 0) eq_refl eq_refl) as (_ & H1 & H2 & _).
  by split.
Defined.

(** C10 as stated fails: with the entry numbered 0 selected, the
    overlay differs from the one with no active rep, in the
    highlighted timeline point and in the rendered 0. *)
Lemma rep_zero_rendering_counterexample :
  let timeline := [Sample.rep 0 0; Sample.rep 1 10] in
  let st' := handleTimeUpdate timeline (mkVideo 3 Sample.forty) initial in
  currentRep timeline Sample.forty (currentTime initial) = Some (Sample.rep 0 0)
  /\ render timeline st'
     = mkView ReadoutPlaceholder [true; false] (NumberText 0)
  /\ render timeline (mkState (currentTime st') (isPlaying st') None)
     = mkView ReadoutPlaceholder [false; false] Nothing
  /\ render timeline st'
     <> render timeline (mkState (currentTime st') (isPlaying st') None).
Proof. done. Qed.

End OverlayFacts.

(** * The runtime model on examples *)

Section RuntimeExamples.

Example parse_nested :
  JSON.parse (jstr " [1, -2.50e3, true, null, {'b': 'x\u0041\n\\'}] ")
  = Normal (JArr [JNum (mkNumber false 1 0); JNum (mkNumber true 250 1);
                  JBool true; JNull;
                  JObj [(str "b", JStr [120; 65; 10; 92])]]).
Proof. by vm_compute. Qed.

Example parse_duplicate_key :
  JSON.parse (jstr "{'a': 1, 'b': 2, 'a': 3}")
  = Normal (JObj [(str "a", JNum (mkNumber false 3 0));
                  (str "b", JNum (mkNumber false 2 0))]).
Proof. by vm_compute. Qed.

Example parse_rejects :
  Forall (fun text => JSON.parse (jstr text) = Throw SyntaxError)
    [""; "01"; "1."; "-"; "1e"; "[1 2]"; "[1,]"; "{'a':1,}"; "{'a'}"; "{a:1}";
     "[]]"; "{} {}"; "truex"; "'abc"; "'a\x'"; "nul"; "+1"; ".5"]%string.
Proof. repeat constructor. Qed.

Example zero_literals :
  Forall (fun text => (v ← JSON.parse (jstr text); Normal (js_truthy v))
                      = Normal false)
    ["0"; "-0"; "0.000"; "0e10"; "1e-400"; "2e-324"; "''"; "null"; "false"]%string
  /\ Forall (fun text => (v ← JSON.parse (jstr text); Normal (js_truthy v))
                         = Normal true)
       ["3e-324"; "5e-324"; "0.1"; "-1"; "'0'"; "[]"; "{}"; "true"]%string.
Proof. split; repeat constructor. Qed.

Example candidate_examples :
  candidate (jstr "```
{'a': 1}
```") = jstr "{'a': 1}"
  /\ candidate (jstr "  json   {'a': {1}} } x") = jstr "{'a': {1}} }"
  /\ candidate (jstr "{ no close") = jstr "{ no close"
  /\ candidate (jstr "`````") = jstr "``".
Proof. by vm_compute. Qed.

End RuntimeExamples.

(** * More about the parser *)

Section ParserExtras.

Implicit Types (s t : jsstring) (c : char).

Lemma trimStart_blank s : blank s -> trimStart s = [].
Proof.
  induction 1 as [|c s Hc _ IH]; [done|]. simpl. by rewrite Hc.
Qed.

Lemma trimStart_blank_app ws s : blank ws -> trimStart (ws ++ s) = trimStart s.
Proof.
  induction 1 as [|c ws Hc _ IH]; [done|]. simpl. by rewrite Hc.
Qed.

Lemma blank_rev s : blank s -> blank (rev s).
Proof.
  unfold blank. rewrite !Forall_forall. intros H c Hc. apply H.
  by rewrite list_elem_of_In, in_rev, <- list_elem_of_In.
Qed.

Lemma trimEnd_blank_app s ws : blank ws -> trimEnd (s ++ ws) = trimEnd s.
Proof.
  intros Hws. unfold trimEnd.
  by rewrite rev_app_distr, trimStart_blank_app by by apply blank_rev.
Qed.

Lemma trim_blank ws s ws' :
  blank ws -> blank ws' -> trim (ws ++ s ++ ws') = trim s.
Proof.
  intros Hws Hws'. unfold trim. rewrite trimStart_blank_app by done.
  induction s as [|c s IH].
  - simpl. by rewrite trimStart_blank.
  - cbn [app trimStart]. destruct (is_space c); [done|].
    exact (trimEnd_blank_app (c :: s) ws' Hws').
Qed.

(** X1. White space around the response, of any kind the language
    trims, makes no difference to the result. *)
Theorem parse_ignores_outer_space ws s ws' :
  blank ws -> blank ws' ->
  Parser.parseAnalysisResult (ws ++ s ++ ws') = Parser.parseAnalysisResult s.
Proof.
  intros Hws Hws'. rewrite !parseAnalysisResult_spec.
  unfold candidate, strip_markdown. by rewrite trim_blank.
Qed.

Lemma parse_ignores_outer_space_witness :
  let ws := [Ch.lf; Ch.tab; 160; 65279] in
  let ws' := [Ch.cr; Ch.lf; 8232; Ch.space] in
  let s := jstr "{'summary':{'totalCount':1},'timeline':[1],'insights':{}}" in
  Parser.parseAnalysisResult (ws ++ s ++ ws') = Parser.parseAnalysisResult s.
Proof.
  intros ws ws' s.
  apply parse_ignores_outer_space; by repeat constructor.
Defined.

Lemma strip_json_tag_elem s c : c ∈ strip_json_tag s -> c ∈ s.
Proof.
  unfold strip_json_tag. destruct (prefixb (str "json") s); [|done].
  intros H%trimStart_elem. by apply (subseteq_drop 4 s).
Qed.

Lemma strip_markdown_elem s c : c ∈ strip_markdown s -> c ∈ s.
Proof.
  unfold strip_markdown, replace_all, trim.
  intros H%strip_json_tag_elem%replace_go_elem%replace_go_elem.
  by apply trimStart_elem, trimEnd_elem.
Qed.

Lemma through_last_rbrace_some s : Ch.rbrace ∈ s -> through_last_rbrace s <> None.
Proof.
  induction s as [|c s IH]; [by intros ?%elem_of_nil|].
  intros [<-|Hs]%elem_of_cons; simpl.
  - by destruct (through_last_rbrace s).
  - by destruct (through_last_rbrace s); [|destruct (IH Hs)].
Qed.

Lemma through_last_rbrace_elem s r : through_last_rbrace s = Some r -> Ch.rbrace ∈ s.
Proof.
  revert r. induction s as [|c s IH]; [done|]. intros r. simpl.
  destruct (through_last_rbrace s) as [r'|].
  - intros _. right. eauto.
  - destruct (c =? Ch.rbrace) eqn:E; [|done].
    apply N.eqb_eq in E as ->. intros _. by left.
Qed.

Lemma match_braces_some s1 s2 :
  Ch.rbrace ∈ s2 -> match_braces (s1 ++ Ch.lbrace :: s2) <> None.
Proof.
  intros Hr. induction s1 as [|c s1 IH]; simpl.
  - by destruct (through_last_rbrace s2) eqn:E;
      [|destruct (through_last_rbrace_some s2 Hr)].
  - destruct (c =? Ch.lbrace); [|done].
    destruct (through_last_rbrace _) eqn:E; [done|].
    destruct (through_last_rbrace_some (s1 ++ Ch.lbrace :: s2)); [|done].
    apply elem_of_app. right. by right.
Qed.

Lemma match_braces_elem s m :
  match_braces s = Some m -> Ch.lbrace ∈ s /\ Ch.rbrace ∈ s.
Proof.
  revert m. induction s as [|c s IH]; [done|]. intros m. simpl.
  destruct (c =? Ch.lbrace) eqn:E.
  - apply N.eqb_eq in E as ->.
    destruct (through_last_rbrace s) as [r|] eqn:Hr; [|done].
    intros _. split; [by left|]. right. by eapply through_last_rbrace_elem.
  - intros [? ?]%IH. split; by right.
Qed.

(** The token that completes an object at the top is [}]. *)
Lemma step_done_object st tok p :
  JSON.step st tok = Some (JSON.PDone (JObj p)) -> tok = JSON.TRBrace.
Proof.
  destruct st as [stk|stk|? stk|stk|? stk|? ? stk|? stk|?], tok; simpl;
    try done; unfold JSON.push_value;
    repeat match goal with
    | |- context [match ?x with _ => _ end] => destruct x
    end; done.
Qed.

Lemma run_done_object toks : forall st p,
  JSON.run st toks = Some (JSON.PDone (JObj p)) ->
  toks = [] \/ exists pre, toks = pre ++ [JSON.TRBrace].
Proof.
  induction toks as [|tok rest IH]; intros st p; [by left|]. simpl.
  destruct (JSON.step st tok) as [st'|] eqn:Hstep; [|done].
  intros Hrun. right. destruct (IH _ _ Hrun) as [->|[pre ->]].
  - simpl in Hrun. injection Hrun as ->.
    apply step_done_object in Hstep as ->. by exists [].
  - by exists (tok :: pre).
Qed.

Lemma step_brace_free st tok st' :
  brace_free st -> tok <> JSON.TLBrace ->
  JSON.step st tok = Some st' -> brace_free st'.
Proof.
  assert (forall v stk, array_frames stk ->
            (forall p, v <> JObj p) -> brace_free (JSON.push_value v stk)) as Hpush.
  { intros v [|[]] Hstk Hv; simpl; try done.
    - by destruct v; [| | | | |destruct (Hv props)].
    - by apply Forall_cons in Hstk as [_ ?].
    - by apply Forall_cons in Hstk as [[] _]. }
  assert (forall stk, array_frames stk -> tok <> JSON.TLBrace ->
            forall st', JSON.start_value tok stk = Some st' -> brace_free st')
    as Hstart.
  { intros stk Hstk Hne st1. destruct tok; simpl; try done;
      intros [= <-]; first [done|by apply Hpush]. }
  intros Hst Hne.
  destruct st as [stk|stk|elems stk|stk|? stk|? ? stk|? stk|?]; simpl in Hst;
    try done.
  - by apply Hstart.
  - assert (array_frames (JSON.FArr [] :: stk)) as Hcons by by constructor.
    destruct tok;
      first [intros H; exact (Hstart _ Hcons Hne _ H)
            |intros [= <-]; by apply Hpush].
  - destruct tok; simpl; try done; intros [= <-]; simpl.
    + by apply Hpush.
    + by constructor.
Qed.

Lemma run_needs_lbrace toks : forall st st',
  brace_free st -> JSON.run st toks = Some st' -> ~ brace_free st' ->
  exists a b, toks = a ++ JSON.TLBrace :: b.
Proof.
  induction toks as [|tok rest IH]; intros st st' Hst; simpl.
  - by intros [= <-].
  - destruct (JSON.step st tok) as [st1|] eqn:Hstep; [|done].
    intros Hrun Hnot.
    assert (tok = JSON.TLBrace \/ tok <> JSON.TLBrace) as [->|Hne]
      by (destruct tok; (by left) || by right).
    + by exists [], rest.
    + destruct (IH st1 st') as (a & b & ->); [|done..|by exists (tok :: a), b].
      by eapply step_brace_free.
Qed.

Lemma lex_go_cons skip c t :
  JSON.lex_go skip (c :: t)
  = match skip with
    | S k => JSON.lex_go k t
    | O =>
        let emit (tok : JSON.token) (n : nat) :=
          match JSON.lex_go n t with
          | Some toks => Some (tok :: toks)
          | None => None
          end in
        if JSON.is_ws c then JSON.lex_go 0%nat t
        else if c =? Ch.lbrace then emit JSON.TLBrace 0%nat
        else if c =? Ch.rbrace then emit JSON.TRBrace 0%nat
        else if c =? Ch.lbracket then emit JSON.TLBracket 0%nat
        else if c =? Ch.rbracket then emit JSON.TRBracket 0%nat
        else if c =? Ch.colon then emit JSON.TColon 0%nat
        else if c =? Ch.comma then emit JSON.TComma 0%nat
        else if c =? Ch.quote then
          match JSON.lex_string t with
          | Some (r, n) => emit (JSON.TString r) n
          | None => None
          end
        else if (c =? 45) || JSON.is_digit c then
          match JSON.lex_number (c :: t) with
          | Some (x, n) => emit (JSON.TNumber x) (pred n)
          | None => None
          end
        else if prefixb (str "true") (c :: t) then emit JSON.TTrue 3%nat
        else if prefixb (str "false") (c :: t) then emit JSON.TFalse 4%nat
        else if prefixb (str "null") (c :: t) then emit JSON.TNull 3%nat
        else None
    end.
Proof. reflexivity. Qed.

(** Every path through the lexer at one code unit. *)
Ltac lexer_paths H :=
  rewrite lex_go_cons in H; cbv zeta in H;
  repeat match type of H with
  | context [if ?b then _ else _] => destruct b eqn:?
  | context [match ?x with _ => _ end] => destruct x as [[? ?]|] eqn:?
  | context [match ?x with _ => _ end] => destruct x eqn:?
  end.

(** A [{] token comes from a [{] in the text. *)
Lemma lex_go_lbrace s : forall skip a b,
  JSON.lex_go skip s = Some (a ++ JSON.TLBrace :: b) ->
  exists s1 s2, s = s1 ++ Ch.lbrace :: s2 /\ JSON.lex_go 0%nat s2 = Some b.
Proof.
  induction s as [|c t IH]; intros skip a b H.
  - simpl in H. by destruct a.
  - assert (forall k a', JSON.lex_go k t = Some (a' ++ JSON.TLBrace :: b) ->
              exists s1 s2, c :: t = s1 ++ Ch.lbrace :: s2
                            /\ JSON.lex_go 0%nat s2 = Some b) as Hrec.
    { intros k a' (s1 & s2 & -> & ?)%IH. by exists (c :: s1), s2. }
    destruct skip as [|k]; [|by eapply (Hrec k a)].
    lexer_paths H; try done; try (by eapply (Hrec _ a));
      injection H as H; destruct a as [|tok a]; simplify_eq/=;
      try (by eapply (Hrec _ a)).
    match goal with E : (c =? Ch.lbrace) = true |- _ => apply N.eqb_eq in E as -> end.
    by exists [], t.
Qed.

(** A [}] token comes from a [}] in the text. *)
Lemma lex_go_rbrace s : forall skip toks,
  JSON.lex_go skip s = Some toks -> JSON.TRBrace ∈ toks -> Ch.rbrace ∈ s.
Proof.
  induction s as [|c t IH]; intros skip toks H Hin.
  - simpl in H. injection H as <-. by apply elem_of_nil in Hin.
  - destruct skip as [|k]; [|right; by eapply IH].
    lexer_paths H; try done; try (right; by eapply IH);
      injection H as <-; apply elem_of_cons in Hin as [Heq|Hin];
      try done; try (right; by eapply IH).
    match goal with E : (c =? Ch.rbrace) = true |- _ => apply N.eqb_eq in E as -> end.
    by left.
Qed.

(** An object is only decoded from a text with a [{] and a later [}]:
    the brace scan finds a match in such a text. *)
Lemma parse_object_braces t p :
  JSON.parse t = Normal (JObj p) -> match_braces t <> None.
Proof.
  unfold JSON.parse, JSON.lex.
  destruct (JSON.lex_go 0%nat t) as [toks|] eqn:Hlex; [|done].
  destruct (JSON.run (JSON.PValue []) toks) as [[| | | | | | |v]|] eqn:Hrun;
    try done.
  intros [= ->].
  assert (brace_free (JSON.PValue [])) as Hstart by by constructor.
  destruct (run_needs_lbrace toks _ _ Hstart Hrun) as (a & b & ->);
    [by intros []|].
  apply run_done_object in Hrun as [Hnil|[pre Hpre]]; [by destruct a|].
  apply lex_go_lbrace in Hlex as (s1 & s2 & -> & Hlex2).
  apply match_braces_some. apply (lex_go_rbrace s2 0%nat b Hlex2).
  destruct b as [|tok b _] using rev_ind.
  - by apply app_inj_tail in Hpre as [_ [=]].
  - rewrite app_comm_cons, app_assoc in Hpre.
    apply app_inj_tail in Hpre as [_ ->]. apply elem_of_app. right. by left.
Qed.

(** X2. A structure is only ever recovered from a span that goes from
    a [{] to a [}]: when the parser returns a tree, the tree is an
    object, the brace scan matched and the tree is the decoding of
    the match; a response without [{] or without [}] yields [null].
    What stands around the span is dropped, the brackets of an
    enclosing array included. *)
Theorem structure_needs_braces s :
  (forall v,
     Parser.parseAnalysisResult s = Normal (Some v) ->
     (exists props, v = JObj props)
     /\ (exists m, match_braces (strip_markdown s) = Some m
                   /\ JSON.parse m = Normal v)
     /\ Ch.lbrace ∈ s /\ Ch.rbrace ∈ s)
  /\ (Ch.lbrace ∉ s \/ Ch.rbrace ∉ s ->
      Parser.parseAnalysisResult s = Normal None).
Proof.
  assert (forall v,
            Parser.parseAnalysisResult s = Normal (Some v) ->
            (exists props, v = JObj props)
            /\ (exists m, match_braces (strip_markdown s) = Some m
                          /\ JSON.parse m = Normal v)
            /\ Ch.lbrace ∈ s /\ Ch.rbrace ∈ s) as Hsome.
  { intros v. rewrite parseAnalysisResult_spec. unfold candidate.
    destruct (match_braces (strip_markdown s)) as [m|] eqn:Hm.
    - destruct (JSON.parse m) as [v'|] eqn:Hparse; [|done].
      destruct (looks_like_analysis v') eqn:Hlooks; [|done]. intros [= ->].
      split; [apply looks_like_analysis_spec in Hlooks as (p & -> & _); eauto|].
      split; [by exists m|].
      apply match_braces_elem in Hm as [? ?].
      split; by apply strip_markdown_elem.
    - destruct (JSON.parse (strip_markdown s)) as [v'|] eqn:Hparse; [|done].
      destruct (looks_like_analysis v') eqn:Hlooks; [|done].
      apply looks_like_analysis_spec in Hlooks as (p & -> & _).
      by apply parse_object_braces in Hparse. }
  split; [done|].
  intros Hno. pose proof (parseAnalysisResult_spec s) as Hspec.
  destruct (Parser.parseAnalysisResult s) as [[v|]|e] eqn:E; [|done|done].
  destruct (Hsome v eq_refl) as (_ & _ & Hl & Hr). by destruct Hno.
Qed.

Lemma structure_needs_braces_witness :
  let s := jstr "[{'summary':1,'timeline':1,'insights':1}]" in
  let inner := JObj [(str "summary", JNum (mkNumber false 1 0));
                     (str "timeline", JNum (mkNumber false 1 0));
                     (str "insights", JNum (mkNumber false 1 0))] in
  Parser.parseAnalysisResult s = Normal (Some inner)
  /\ (exists m, match_braces (strip_markdown s) = Some m
                /\ JSON.parse m = Normal inner)
  /\ Parser.parseAnalysisResult (jstr "[1, 2, 3]") = Normal None.
Proof.
  intros s inner.
  assert (Parser.parseAnalysisResult s = Normal (Some inner)) as Hs
    by (by vm_compute).
  split; [done|]. split.
  - apply (proj1 (structure_needs_braces s) inner Hs).
  - apply (proj2 (structure_needs_braces (jstr "[1, 2, 3]"))).
    left. by apply (bool_decide_unpack _).
Defined.

(** X3. The overlay reads [analysis.quality.overallScore], and the
    parser does not look at [quality]: on a tree the parser returned,
    the summary cards are evaluated without exception exactly when
    [quality] is there and not [null]; else they throw a
    [TypeError]. The reads through [summary] never throw. *)
Theorem summary_cards_need_quality s v :
  Parser.parseAnalysisResult s = Normal (Some v) ->
  match get v (str "quality") with
  | Normal (Some JNull) | Normal None | Throw _ =>
      summary_cards v = Throw TypeError
  | Normal (Some _) => exists cards, summary_cards v = Normal cards
  end.
Proof.
  rewrite parseAnalysisResult_spec.
  destruct (JSON.parse (candidate s)) as [v'|]; [|done].
  destruct (looks_like_analysis v') eqn:Hlooks; [|done]. intros [= ->].
  apply looks_like_analysis_spec in Hlooks as (props & -> & Hkeys).
  destruct (Hkeys (str "summary")) as (x & Hx & Htruthy);
    [by apply (bool_decide_unpack _)|].
  assert (forall k, exists o, get x k = Normal o) as Hget
    by (intros k; destruct x; try done; by eexists).
  destruct (Hget (str "totalCount")) as [o1 Ho1].
  destruct (Hget (str "averageRepsPerMinute")) as [o2 Ho2].
  unfold summary_cards. cbn. rewrite Hx. cbn. rewrite Ho1, Ho2. cbn.
  destruct (obj_get (str "quality") props) as [q|]; cbn; [|done].
  destruct q; try done; by eexists.
Qed.

Lemma summary_cards_need_quality_witness :
  summary_cards (JObj [(str "summary", JObj [(str "totalCount", JNum (mkNumber false 3 0))]);
                       (str "timeline", JArr []);
                       (str "insights", JObj [])])
  = Throw TypeError.
Proof.
  exact (summary_cards_need_quality
           (jstr "{'summary':{'totalCount':3},'timeline':[],'insights':{}}") _
           ltac:(by vm_compute)).
Defined.

End ParserExtras.

(** * More on the hook: adding, removing, completing, clearing *)

Section HookExtras.

Import Controller.

Implicit Types (e : env) (w : world) (media m : CapturedMedia.t)
  (prev : list CapturedMedia.t) (id : jsstring).

Ltac hook_paths :=
  unfold processVideoWithGemini, try_catchM, mbind, M_bind, mret, M_ret,
    lift, setCapturedMedia, storeMedia;
  repeat case_match; simplify_eq/=.

Lemma world_eta w : mkWorld (capturedMedia w) (db w) = w.
Proof. by destruct w. Qed.

Lemma filter_absent id prev :
  id ∉ CapturedMedia.id <$> prev ->
  filter (fun m => CapturedMedia.id m ≠ id) prev = prev.
Proof.
  induction prev as [|m prev IH]; [done|].
  rewrite fmap_cons, not_elem_of_cons. intros [Hm Hprev].
  rewrite filter_cons, decide_True by done. by rewrite IH.
Qed.

Lemma find_absent id prev :
  id ∉ CapturedMedia.id <$> prev ->
  List.find (fun m => bool_decide (CapturedMedia.id m = id)) prev = None.
Proof.
  induction prev as [|m prev IH]; [done|].
  rewrite fmap_cons, not_elem_of_cons. intros [Hm Hprev]. simpl.
  rewrite bool_decide_eq_false_2 by done. by apply IH.
Qed.

(** X4. [addMedia] never throws and never loses the capture: it puts
    exactly one record in front of the collection, which agrees with
    the record passed in on everything but the analysis and the
    storage key, and leaves the earlier records as they are. For a
    photo, or when inference is not configured, nothing is attached
    and no analysis is started. An analysis is only started for the
    record kept in memory, and only when that record has been written
    to the store, under the key the record carries. *)
Theorem addMedia_keeps_capture e media w :
  exists kept started db',
    addMedia e media w = (Normal started, mkWorld (kept :: capturedMedia w) db')
    /\ same_capture kept media
    /\ (CapturedMedia.type media = Photo \/ isConfigured e = false ->
        started = None
        /\ CapturedMedia.geminiAnalysis kept = CapturedMedia.geminiAnalysis media)
    /\ (forall x, started = Some x ->
        x = kept
        /\ CapturedMedia.geminiAnalysis kept = Some (pending_analysis e)
        /\ exists key,
             CapturedMedia.indexedDbId kept = Some key
             /\ db' !! key
                = Some (stored_data kept (CapturedMedia.geminiAnalysis kept))).
Proof.
  unfold addMedia, try_catchM, mbind, M_bind, storeMedia, setCapturedMedia,
    mret, M_ret.
  destruct (storeUnavailable e) eqn:Hdown; simpl.
  { exists media, None, (db w). split; [done|]. split; [done|]. split; done. }
  destruct (bool_decide (CapturedMedia.type media = Video) && isConfigured e)
    eqn:Hwants; simpl.
  - eexists _, _, _. split; [reflexivity|]. split; [done|]. split.
    + apply andb_true_iff in Hwants as [Hty%bool_decide_eq_true Hconf].
      intros [Hph| Hno]; congruence.
    + intros x [= <-]. split; [done|]. split; [done|].
      eexists. split; [done|]. by rewrite lookup_insert_eq.
  - eexists _, _, _. split; [reflexivity|]. split; [done|]. split; done.
Qed.

(** [removeMedia] on a collection whose first record has the id. *)
Lemma removeMedia_head e m prev D :
  CapturedMedia.id m ∉ CapturedMedia.id <$> prev ->
  removeMedia e (CapturedMedia.id m) (mkWorld (m :: prev) D)
  = (Normal (),
     mkWorld prev
       match CapturedMedia.indexedDbId m with
       | Some (c :: k) => if storeUnavailable e then D else delete (c :: k) D
       | _ => D
       end).
Proof.
  intros Hnew. unfold removeMedia. cbn [capturedMedia List.find].
  rewrite bool_decide_eq_true_2 by done.
  rewrite filter_cons_False by (by intros H; apply H).
  rewrite filter_absent by done. do 2 f_equal.
  destruct (CapturedMedia.indexedDbId m) as [[|c k]|]; try done.
  unfold try_catchM, deleteMedia. by destruct (storeUnavailable e).
Qed.

(** The world [addMedia] leaves. *)
Lemma addMedia_world e media w :
  let mediaWithProcessing :=
    if bool_decide (CapturedMedia.type media = Video) && isConfigured e
    then CapturedMedia.with_geminiAnalysis media (Some (pending_analysis e))
    else media in
  let d := stored_data mediaWithProcessing
             (CapturedMedia.geminiAnalysis mediaWithProcessing) in
  (addMedia e media w).2
  = if storeUnavailable e then mkWorld (media :: capturedMedia w) (db w)
    else mkWorld (CapturedMedia.with_indexedDbId mediaWithProcessing (storeKey e d)
                  :: capturedMedia w)
           (<[storeKey e d := d]> (db w)).
Proof.
  unfold addMedia, try_catchM, mbind, M_bind, storeMedia, setCapturedMedia,
    mret, M_ret.
  destruct (storeUnavailable e); [done|].
  by destruct (bool_decide (CapturedMedia.type media = Video) && isConfigured e).
Qed.

(** X5. Adding a capture and removing it again is a round trip: when
    the id is new to the collection, the key the store chooses for
    the record is a non-empty string not in use, and the store that
    accepted the record is still in order at the removal, memory and
    store are back as they were. When the store did not accept the
    record, the memory is back as it was and the store is untouched. *)
Theorem add_then_remove e e' media w :
  CapturedMedia.id media ∉ CapturedMedia.id <$> capturedMedia w ->
  CapturedMedia.indexedDbId media = None ->
  (storeUnavailable e = false ->
   storeUnavailable e' = false
   /\ forall d, StoredMediaData.id d = CapturedMedia.id media ->
                storeKey e d <> [] /\ db w !! storeKey e d = None) ->
  removeMedia e' (CapturedMedia.id media) (addMedia e media w).2
  = (Normal (), w).
Proof.
  intros Hnew Hkey Hstore. rewrite addMedia_world.
  destruct (storeUnavailable e) eqn:Hdown.
  - rewrite removeMedia_head, Hkey by done. by rewrite world_eta.
  - destruct Hstore as [Hup Hfresh]; [done|].
    set (kept := if bool_decide (CapturedMedia.type media = Video) && isConfigured e
                 then CapturedMedia.with_geminiAnalysis media (Some (pending_analysis e))
                 else media).
    set (d := stored_data kept (CapturedMedia.geminiAnalysis kept)).
    assert (CapturedMedia.id kept = CapturedMedia.id media) as Hid
      by (unfold kept; by case_match).
    destruct (Hfresh d) as [Hne Hnone]; [done|].
    rewrite <- Hid.
    change (CapturedMedia.id kept)
      with (CapturedMedia.id (CapturedMedia.with_indexedDbId kept (storeKey e d))).
    rewrite removeMedia_head by (by simpl; rewrite Hid).
    simpl. destruct (storeKey e d) as [|c k] eqn:Hk; [done|].
    rewrite Hup, delete_insert_id by done. by rewrite world_eta.
Qed.

Lemma add_then_remove_witness :
  let e := Sample.services (Sample.answering Sample.report) false in
  let w := mkWorld [Sample.photo1] ∅ in
  removeMedia e (CapturedMedia.id Sample.video1) (addMedia e Sample.video1 w).2
  = (Normal (), w).
Proof.
  intros e w. apply add_then_remove.
  - by apply (bool_decide_unpack _).
  - done.
  - intros _. split; [done|]. intros d Hd. simpl. by rewrite Hd.
Defined.

End HookExtras.

(** * Completion, removal, loading, the inference service, the overlay *)

Section CompletionInvariant.

Import Controller.

Implicit Types (e : env) (w : world) (media m : CapturedMedia.t)
  (prev : list CapturedMedia.t) (id : jsstring).

Ltac hook_paths :=
  unfold processVideoWithGemini, try_catchM, mbind, M_bind, mret, M_ret,
    lift, setCapturedMedia, storeMedia;
  repeat case_match; simplify_eq/=.

(** An update by id that only replaces the analysis. *)
Lemma by_id_without_analysis (g : CapturedMedia.t -> option GeminiAnalysis.t) id prev :
  without_analysis
    <$> ((fun m => if decide (CapturedMedia.id m = id)
                   then CapturedMedia.with_geminiAnalysis m (g m) else m) <$> prev)
  = without_analysis <$> prev.
Proof.
  rewrite <- list_fmap_compose. apply list_fmap_ext.
  intros i m _. simpl. by case_decide.
Qed.

Lemma apply_analysis_without id a prev :
  without_analysis <$> apply_analysis id a prev = without_analysis <$> prev.
Proof. apply (by_id_without_analysis (fun _ => Some a)). Qed.

Lemma mark_processing_failed_without id prev :
  without_analysis <$> mark_processing_failed id prev = without_analysis <$> prev.
Proof. apply (by_id_without_analysis (fun m => Some _)). Qed.

Lemma apply_pushupData_without id d prev :
  without_analysis <$> apply_pushupData id d prev = without_analysis <$> prev.
Proof. apply (by_id_without_analysis (fun m => Some _)). Qed.

(** X6. The completion of an analysis and the reprocessing after
    loading change nothing but analyses: the collection keeps its
    length and order, and every record its id, type, object URL,
    payload, time, file name and storage key. The reprocessing does
    not touch the store either. *)
Theorem only_analyses_change e media restored w :
  without_analysis <$> capturedMedia (processVideoWithGemini e media w).2
  = without_analysis <$> capturedMedia w
  /\ without_analysis <$> capturedMedia (reprocess_restored restored w).2
     = without_analysis <$> capturedMedia w
  /\ db (reprocess_restored restored w).2 = db w.
Proof.
  split; [|split].
  - hook_paths;
      by rewrite ?mark_processing_failed_without, ?apply_analysis_without.
  - unfold reprocess_restored, Reprocess.reprocessAnalysis.
    rewrite loop_spec. simpl.
    generalize (capturedMedia w). induction (recovered restored) as [|u us IH];
      intros prev; [done|].
    simpl. by rewrite IH, apply_pushupData_without.
  - unfold reprocess_restored, Reprocess.reprocessAnalysis.
    by rewrite loop_spec.
Qed.

End CompletionInvariant.

Section CompletionFinal.

Import Controller.

Implicit Types (e : env) (w : world) (media m : CapturedMedia.t)
  (prev : list CapturedMedia.t) (id : jsstring).

Ltac hook_paths :=
  unfold processVideoWithGemini, try_catchM, mbind, M_bind, mret, M_ret,
    lift, setCapturedMedia, storeMedia;
  repeat case_match; simplify_eq/=.

Lemma apply_analysis_elem id a prev m :
  m ∈ apply_analysis id a prev -> CapturedMedia.id m = id ->
  CapturedMedia.geminiAnalysis m = Some a.
Proof.
  intros (m0 & -> & _)%list_elem_of_fmap. by case_decide.
Qed.

Lemma mark_processing_failed_elem id prev m :
  m ∈ mark_processing_failed id prev -> CapturedMedia.id m = id ->
  exists a, CapturedMedia.geminiAnalysis m = Some a
            /\ GeminiAnalysis.isProcessing a = Some false
            /\ GeminiAnalysis.error a = Some (str "Processing failed")
            /\ exists m0, m0 ∈ prev /\ CapturedMedia.id m0 = id
                 /\ GeminiAnalysis.result a
                    = GeminiAnalysis.result
                        (GeminiAnalysis.spread (CapturedMedia.geminiAnalysis m0))
                 /\ GeminiAnalysis.pushupData a
                    = GeminiAnalysis.pushupData
                        (GeminiAnalysis.spread (CapturedMedia.geminiAnalysis m0)).
Proof.
  intros (m0 & -> & Hm0)%list_elem_of_fmap. case_decide; [|done].
  intros _. eexists. split; [done|]. split; [done|]. split; [done|].
  by exists m0.
Qed.

Lemma truthy_str_default o :
  truthy_str o = true -> truthy_str (Some (default [] o)) = true.
Proof. by destruct o as [[|c t]|]. Qed.

(** X7. When the completion of an analysis has run for a video with
    an analysis, every record of the collection with the submitted id
    is in a final state: it carries an analysis that is no longer
    processing and holds an error message or a result text, so the
    preview shows neither the progress notice nor the notice that
    there is no analysis. *)
Theorem completion_is_final e media w m :
  CapturedMedia.type media = Video ->
  is_Some (CapturedMedia.geminiAnalysis media) ->
  m ∈ capturedMedia (processVideoWithGemini e media w).2 ->
  CapturedMedia.id m = CapturedMedia.id media ->
  exists a,
    CapturedMedia.geminiAnalysis m = Some a
    /\ GeminiAnalysis.isProcessing a = Some false
    /\ (truthy_str (GeminiAnalysis.error a) = true
        \/ truthy_str (GeminiAnalysis.result a) = true)
    /\ Preview.analysis_section m <> Some Preview.Analyzing
    /\ Preview.analysis_section m <> Some Preview.NoAnalysis.
Proof.
  intros Hty [analysis Han] Hm Hid.
  assert (exists a,
    CapturedMedia.geminiAnalysis m = Some a
    /\ GeminiAnalysis.isProcessing a = Some false
    /\ (truthy_str (GeminiAnalysis.error a) = true
        \/ truthy_str (GeminiAnalysis.result a) = true)) as (a & Ha & Hproc & Hshown).
  { revert Hm. hook_paths; intros Hm.
    all: try (apply mark_processing_failed_elem in Hm
                as (an & Han' & Hproc & Herr & _); [|done];
              exists an; rewrite Herr; by auto).
    all: apply apply_analysis_elem in Hm; [|done];
         eexists; (split; [exact Hm|]); (split; [done|]); simpl.
    1-4: right; apply andb_true_iff in H3 as [_ H3];
         by destruct (GeminiResult.result a) as [[|c t]|].
    left. by destruct (GeminiResult.error a) as [[|c t]|]. }
  exists a. split; [done|]. split; [done|]. split; [done|].
  unfold Preview.analysis_section, Preview.analysis_status.
  rewrite Ha, Hproc. simpl.
  destruct (CapturedMedia.type m); [done|].
  destruct (truthy (GeminiAnalysis.pushupData a)); [done|].
  destruct (truthy_str (GeminiAnalysis.error a)); [done|].
  destruct (truthy_str (GeminiAnalysis.result a)); [done|].
  by destruct Hshown.
Qed.

Lemma completion_is_final_witness :
  let e := Sample.services (Sample.failing []) false in
  let media := Sample.video1_pending e in
  let w := mkWorld [media; Sample.photo1] ∅ in
  exists m a,
    capturedMedia (processVideoWithGemini e media w).2 !! 0%nat = Some m
    /\ CapturedMedia.geminiAnalysis m = Some a
    /\ GeminiAnalysis.isProcessing a = Some false
    /\ Preview.analysis_section m <> Some Preview.Analyzing.
Proof.
  intros e media w.
  destruct (completion_is_final e media w
              (CapturedMedia.with_geminiAnalysis media
                 (Some (errorAnalysis (pending_analysis e) (Some [])))))
    as (a & Ha & Hproc & _ & Hshown & _); [done|done|by left|done|].
  by eexists _, a.
Defined.

End CompletionFinal.

Section CompletionAnswered.

Import Controller.

Implicit Types (e : env) (w : world) (media m : CapturedMedia.t).

(** The success branch, lines 86-121, in general. *)
Lemma processVideoWithGemini_answered e media analysis r text w :
  CapturedMedia.type media = Video ->
  CapturedMedia.geminiAnalysis media = Some analysis ->
  processVideo e (CapturedMedia.blob media) (submitted_prompt analysis)
  = Normal r ->
  GeminiResult.success r = true ->
  GeminiResult.result r = Some text -> text <> [] ->
  exists pushupData,
    Parser.parseAnalysisResult text = Normal pushupData
    /\ (forall v, pushupData = Some v -> js_truthy v = true)
    /\ processVideoWithGemini e media w
       = let updated := updatedAnalysis analysis text pushupData in
         let applied :=
           apply_analysis (CapturedMedia.id media) updated (capturedMedia w) in
         let d := stored_data media (Some updated) in
         (Normal (),
          if truthy_str (CapturedMedia.indexedDbId media) then
            if storeUnavailable e
            then mkWorld (mark_processing_failed (CapturedMedia.id media) applied)
                   (db w)
            else mkWorld applied (<[storeKey e d := d]> (db w))
          else mkWorld applied (db w)).
Proof.
  intros Hty Han Hr Hok Htext Hne.
  pose proof (parseAnalysisResult_spec text) as Hspec.
  set (pushupData := match JSON.parse (candidate text) with
                     | Normal v => if looks_like_analysis v then Some v else None
                     | Throw _ => None
                     end) in Hspec.
  assert (forall v, pushupData = Some v -> js_truthy v = true) as Htruthy.
  { unfold pushupData. intros v. destruct (JSON.parse _) as [v'|]; [|done].
    destruct (looks_like_analysis v') eqn:E; [|done]. intros [= <-].
    by apply looks_like_analysis_spec in E as (props & -> & _). }
  exists pushupData. split; [done|]. split; [done|].
  unfold processVideoWithGemini.
  rewrite Hty, Han. unfold try_catchM, mbind, M_bind, lift.
  rewrite Hr, Hok, Htext.
  assert (truthy_str (Some text) = true) as -> by (by destruct text).
  change (default [] (Some text)) with text.
  rewrite Hspec. clearbody pushupData.
  assert ((if truthy pushupData then pushupData else None) = pushupData) as Hp.
  { destruct pushupData as [v|]; [|done]. simpl. by rewrite Htruthy. }
  cbn [andb]. rewrite Hp.
  unfold setCapturedMedia, storeMedia, mret, M_ret. cbn [capturedMedia db].
  destruct (truthy_str (CapturedMedia.indexedDbId media)); [|done].
  by destruct (storeUnavailable e).
Qed.

End CompletionAnswered.

Section RemovalAndClearing.

Import Controller.

Implicit Types (e : env) (w : world) (media m : CapturedMedia.t)
  (prev : list CapturedMedia.t) (id : jsstring).

(** X8. When the inference client has answered with a text and the
    write to the store then fails, the completion does not throw and
    leaves the store as it is; every record with the submitted id
    keeps the text and the structure parsed from it, is no longer
    processing, and carries the error [Processing failed]. Where no
    structure was recovered, the preview of such a video therefore
    reports a failed analysis instead of showing the text. *)
Theorem store_failure_masks_result e media analysis r text w :
  CapturedMedia.type media = Video ->
  CapturedMedia.geminiAnalysis media = Some analysis ->
  processVideo e (CapturedMedia.blob media) (submitted_prompt analysis)
  = Normal r ->
  GeminiResult.success r = true ->
  GeminiResult.result r = Some text -> text <> [] ->
  truthy_str (CapturedMedia.indexedDbId media) = true ->
  storeUnavailable e = true ->
  exists pushupData,
    Parser.parseAnalysisResult text = Normal pushupData
    /\ (processVideoWithGemini e media w).1 = Normal ()
    /\ db (processVideoWithGemini e media w).2 = db w
    /\ forall m,
         m ∈ capturedMedia (processVideoWithGemini e media w).2 ->
         CapturedMedia.id m = CapturedMedia.id media ->
         exists a,
           CapturedMedia.geminiAnalysis m = Some a
           /\ GeminiAnalysis.result a = Some text
           /\ GeminiAnalysis.pushupData a = pushupData
           /\ GeminiAnalysis.isProcessing a = Some false
           /\ GeminiAnalysis.error a = Some (str "Processing failed")
           /\ (CapturedMedia.type m = Video -> pushupData = None ->
               Preview.analysis_section m
               = Some (Preview.AnalysisFailed (str "Processing failed"))).
Proof.
  intros Hty Han Hr Hok Htext Hne Hkey Hdown.
  destruct (processVideoWithGemini_answered e media analysis r text w)
    as (pushupData & Hparse & _ & ->); [done..|].
  rewrite Hkey, Hdown. cbn [fst snd capturedMedia db].
  exists pushupData. split; [done|]. split; [done|]. split; [done|].
  intros m (m1 & -> & (m0 & -> & Hm0)%list_elem_of_fmap)%list_elem_of_fmap.
  destruct (decide (CapturedMedia.id m0 = CapturedMedia.id media)) as [Heq|Hne'];
    [|by rewrite decide_False].
  cbn [CapturedMedia.with_geminiAnalysis CapturedMedia.id].
  rewrite decide_True by done. intros _.
  eexists. split; [reflexivity|]. do 4 (split; [done|]).
  cbn [CapturedMedia.with_geminiAnalysis CapturedMedia.type].
  intros Htym Hnone. unfold Preview.analysis_section.
  cbn [CapturedMedia.with_geminiAnalysis CapturedMedia.type
       CapturedMedia.geminiAnalysis].
  rewrite Htym. cbn [GeminiAnalysis.spread default GeminiAnalysis.pushupData
                     updatedAnalysis].
  by rewrite Hnone.
Qed.

Lemma store_failure_masks_result_witness :
  let e := Sample.services (Sample.answering (str "Twelve pushups.")) true in
  let media := Sample.video1_pending e in
  let w := mkWorld [media] ∅ in
  exists m,
    capturedMedia (processVideoWithGemini e media w).2 = [m]
    /\ Preview.analysis_section m
       = Some (Preview.AnalysisFailed (str "Processing failed")).
Proof.
  intros e media w.
  destruct (store_failure_masks_result e media (pending_analysis e)
              (GeminiResult.mk true (Some (str "Twelve pushups.")) None)
              (str "Twelve pushups.") w)
    as (pushupData & Hparse & _ & _ & Hall); [done..|].
  eexists. split; [reflexivity|].
  edestruct Hall as (a & _ & _ & _ & _ & _ & Hshown); [by left|done|].
  apply Hshown; [done|].
  revert Hparse. vm_compute. congruence.
Defined.

(** X9. Removing is idempotent, and removing an id the collection
    does not hold changes nothing, in memory or in the store. A
    deletion the store refuses is swallowed: the records leave the
    memory and the store keeps what it has. *)
Theorem removeMedia_idempotent e e' id w :
  removeMedia e' id (removeMedia e id w).2 = removeMedia e id w
  /\ (id ∉ CapturedMedia.id <$> capturedMedia w ->
      removeMedia e id w = (Normal (), w))
  /\ (storeUnavailable e = true ->
      removeMedia e id w
      = (Normal (),
         mkWorld (filter (fun m => CapturedMedia.id m ≠ id) (capturedMedia w))
           (db w))).
Proof.
  assert (forall e w, id ∉ CapturedMedia.id <$> capturedMedia w ->
                      removeMedia e id w = (Normal (), w)) as Habs.
  { intros e0 w0 Hid. unfold removeMedia.
    rewrite find_absent, filter_absent by done. by rewrite world_eta. }
  split; [|split].
  - rewrite Habs by apply removeMedia_absent. done.
  - apply Habs.
  - intros Hdown. unfold removeMedia. do 2 f_equal.
    destruct (List.find _ _) as [m|]; [|done].
    destruct (CapturedMedia.indexedDbId m) as [[|c k]|]; try done.
    unfold try_catchM, deleteMedia. by rewrite Hdown.
Qed.

Lemma removeMedia_idempotent_witness :
  let e := Sample.services (Sample.answering Sample.report) true in
  let media := Sample.video1_pending e in
  let w := mkWorld [media; Sample.photo1]
             {[ CapturedMedia.id media := stored_data media None ]} in
  removeMedia e (CapturedMedia.id media) w
  = (Normal (), mkWorld [Sample.photo1] (db w))
  /\ removeMedia e (CapturedMedia.id media) (mkWorld [Sample.photo1] (db w))
     = (Normal (), mkWorld [Sample.photo1] (db w)).
Proof.
  intros e media w. split.
  - by rewrite (proj2 (proj2 (removeMedia_idempotent e e (CapturedMedia.id media) w))).
  - apply (proj1 (proj2 (removeMedia_idempotent e e (CapturedMedia.id media)
                           (mkWorld [Sample.photo1] (db w))))).
    by apply (bool_decide_unpack _).
Defined.

(** X10. A video removed while its analysis is under way comes back
    in the store: when the answer arrives, the completion leaves the
    memory without the record, but writes the record, with the
    finished analysis, to the store, where the next load finds it. *)
Theorem removed_video_returns_to_store e e' media analysis r text w :
  CapturedMedia.type media = Video ->
  CapturedMedia.geminiAnalysis media = Some analysis ->
  processVideo e (CapturedMedia.blob media) (submitted_prompt analysis)
  = Normal r ->
  GeminiResult.success r = true ->
  GeminiResult.result r = Some text -> text <> [] ->
  truthy_str (CapturedMedia.indexedDbId media) = true ->
  storeUnavailable e = false ->
  let removal := (removeMedia e' (CapturedMedia.id media) w).2 in
  let after := (processVideoWithGemini e media removal).2 in
  (CapturedMedia.id media ∉ CapturedMedia.id <$> capturedMedia after)
  /\ exists d a,
       db after !! storeKey e d = Some d
       /\ StoredMediaData.id d = CapturedMedia.id media
       /\ StoredMediaData.blob d = CapturedMedia.blob media
       /\ StoredMediaData.geminiAnalysis d = Some a
       /\ GeminiAnalysis.result a = Some text
       /\ GeminiAnalysis.isProcessing a = Some false.
Proof.
  intros Hty Han Hr Hok Htext Hne Hkey Hup removal after.
  split.
  - unfold after. rewrite processVideoWithGemini_absent;
      apply removeMedia_absent.
  - destruct (processVideoWithGemini_success e media analysis r text removal)
      as (pushupData & _ & Hrun); try done.
    unfold after. rewrite Hrun. simpl.
    eexists _, _. split; [by rewrite lookup_insert_eq|]. done.
Qed.

Lemma removed_video_returns_to_store_witness :
  let e := Sample.services (Sample.answering Sample.report) false in
  let media := Sample.video1_pending e in
  let w := mkWorld [media] {[ CapturedMedia.id media := stored_data media None ]} in
  let removal := (removeMedia e (CapturedMedia.id media) w).2 in
  let after := (processVideoWithGemini e media removal).2 in
  removal = mkWorld [] ∅
  /\ capturedMedia after = []
  /\ is_Some (db after !! CapturedMedia.id media).
Proof.
  intros e media w removal after.
  destruct (removed_video_returns_to_store e e media (pending_analysis e)
              (GeminiResult.mk true (Some Sample.report) None)
              Sample.report w)
    as (_ & d & a & Hd & Hid & _); [done..|].
  split; [|split].
  - done.
  - done.
  - exists d. rewrite <- Hid. exact Hd.
Defined.

(** X11. Clearing never throws and always empties the memory, also
    when the store refuses to be cleared (it then keeps its records);
    an analysis that completes afterwards leaves the memory empty. *)
Theorem clearAllMedia_empties e w :
  Hook.clearAllMedia e w
  = (Normal (), mkWorld [] (if storeUnavailable e then db w else ∅))
  /\ forall e' media,
       capturedMedia
         (processVideoWithGemini e' media (Hook.clearAllMedia e w).2).2 = [].
Proof.
  assert (Hook.clearAllMedia e w
          = (Normal (), mkWorld [] (if storeUnavailable e then db w else ∅)))
    as Hclear.
  { unfold Hook.clearAllMedia, Hook.clearStore, try_catchM, mbind, M_bind,
      setCapturedMedia, mret, M_ret.
    by destruct (storeUnavailable e). }
  split; [done|]. intros e' media. rewrite Hclear.
  by rewrite processVideoWithGemini_absent by (simpl; apply not_elem_of_nil).
Qed.

End RemovalAndClearing.

Section LoadExtras.

Import Controller.

Implicit Types (x y m : CapturedMedia.t) (l : list CapturedMedia.t).

Lemma insert_newest_first_perm x l : Hook.insert_newest_first x l ≡ₚ x :: l.
Proof.
  induction l as [|y l IH]; [done|]. simpl. case_match; [done|].
  rewrite IH. apply Permutation_swap.
Qed.

Lemma insert_newest_first_sorted x l :
  newest_first l -> newest_first (Hook.insert_newest_first x l).
Proof.
  unfold newest_first. induction l as [|y l IH]; intros Hl.
  - repeat constructor.
  - simpl. destruct (Z.leb_spec (CapturedMedia.timestamp y) (CapturedMedia.timestamp x)) as [Hle|Hlt].
    + constructor; [done|].
      apply StronglySorted_inv in Hl as [_ Hall].
      constructor; [done|].
      eapply Forall_impl; [exact Hall|]. unfold not_newer. simpl. intros z Hz. lia.
    + apply StronglySorted_inv in Hl as [Hl Hall].
      constructor; [by apply IH|].
      rewrite insert_newest_first_perm. constructor; [|done].
      unfold not_newer. lia.
Qed.

Lemma insert_newest_first_taken_at ts x l :
  taken_at ts (Hook.insert_newest_first x l) = taken_at ts (x :: l).
Proof.
  unfold taken_at. induction l as [|y l IH]; [done|]. simpl.
  destruct (Z.leb_spec (CapturedMedia.timestamp y) (CapturedMedia.timestamp x)) as [Hle|Hlt];
    [done|].
  rewrite (filter_cons _ y (Hook.insert_newest_first x l)), IH.
  rewrite !filter_cons. repeat case_decide; try done. lia.
Qed.

Lemma sort_newest_first_spec l :
  newest_first (Hook.sort_newest_first l)
  /\ Hook.sort_newest_first l ≡ₚ l
  /\ forall ts, taken_at ts (Hook.sort_newest_first l) = taken_at ts l.
Proof.
  induction l as [|x l (Hs & Hp & Ht)].
  - split; [constructor|done].
  - simpl. split; [by apply insert_newest_first_sorted|]. split.
    + by rewrite insert_newest_first_perm, Hp.
    + intros ts. rewrite insert_newest_first_taken_at. unfold taken_at in *.
      by rewrite !filter_cons, Ht.
Qed.

Lemma map_throwing_restore createObjectURL stored : forall restored,
  Hook.map_throwing (Hook.restore createObjectURL) stored = Normal restored ->
  Forall2 (fun d m =>
             createObjectURL (StoredMediaData.blob d) = Normal (CapturedMedia.url m)
             /\ m = CapturedMedia.mk (StoredMediaData.id d) (StoredMediaData.type d)
                      (CapturedMedia.url m) (StoredMediaData.blob d)
                      (StoredMediaData.timestamp d) (StoredMediaData.filename d)
                      (Some (StoredMediaData.id d))
                      (StoredMediaData.geminiAnalysis d))
    stored restored.
Proof.
  induction stored as [|d stored IH]; intros restored.
  - intros [= <-]. constructor.
  - change (Hook.map_throwing (Hook.restore createObjectURL) (d :: stored))
      with (y ← Hook.restore createObjectURL d;
            ys ← Hook.map_throwing (Hook.restore createObjectURL) stored;
            Normal (y :: ys)).
    destruct (Hook.restore createObjectURL d) as [m|] eqn:Hm; [|done].
    destruct (Hook.map_throwing _ stored) as [ms|]; [|done].
    intros [= <-]. constructor; [|by apply IH].
    unfold Hook.restore in Hm.
    destruct (createObjectURL (StoredMediaData.blob d)) as [u|]; [|done].
    by injection Hm as <-.
Qed.

(** X12. Loading never throws. When the store answers with records
    and an object URL can be made for each of them, the memory is
    replaced by the restored records, newest first: the same records,
    none lost or doubled, records of the same time in the order the
    store gave them; each record has the stored id, type, payload,
    time, file name and analysis, and its storage key is its id. The
    store is not written. When the store fails, answers with no
    record, or an object URL cannot be made, memory and store stay as
    they are and no reprocessing is scheduled. *)
Theorem loadPersistedMedia_restores createObjectURL getAllMedia w :
  let loaded := Hook.loadPersistedMedia createObjectURL getAllMedia w in
  match getAllMedia with
  | Normal (d :: stored) =>
      match Hook.map_throwing (Hook.restore createObjectURL) (d :: stored) with
      | Normal restored =>
          exists sorted,
            loaded = (Normal (Some sorted), mkWorld sorted (db w))
            /\ newest_first sorted
            /\ sorted ≡ₚ restored
            /\ (forall ts, taken_at ts sorted = taken_at ts restored)
            /\ Forall2 (fun d m =>
                          stored_data m (CapturedMedia.geminiAnalysis m) = d
                          /\ CapturedMedia.indexedDbId m = Some (StoredMediaData.id d)
                          /\ createObjectURL (CapturedMedia.blob m)
                             = Normal (CapturedMedia.url m))
                 (d :: stored) restored
      | Throw _ => loaded = (Normal None, w)
      end
  | _ => loaded = (Normal None, w)
  end.
Proof.
  intros loaded. unfold loaded, Hook.loadPersistedMedia, try_catchM, mbind,
    M_bind, lift, setCapturedMedia, mret, M_ret.
  destruct getAllMedia as [[|d stored]|]; [done| |done].
  destruct (Hook.map_throwing _ (d :: stored)) as [restored|] eqn:Hmap; [|done].
  destruct (sort_newest_first_spec restored) as (Hs & Hp & Ht).
  eexists. split; [reflexivity|]. split; [done|]. split; [done|]. split; [done|].
  apply map_throwing_restore in Hmap.
  eapply Forall2_impl; [exact Hmap|].
  intros d' m [Hu Hm]. rewrite Hm. simpl. split; [by destruct d'|]. done.
Qed.

End LoadExtras.

Section CreateExtras.

Import Controller.

Lemma dash_colons_and_dots_clean s :
  (46 ∉ Hook.dash_colons_and_dots s) /\ (58 ∉ Hook.dash_colons_and_dots s).
Proof.
  unfold Hook.dash_colons_and_dots.
  split; intros (c & Hc & _)%list_elem_of_fmap; revert Hc;
    destruct (N.eqb_spec c 58) as [->|H58]; simpl; try done;
    destruct (N.eqb_spec c 46) as [->|H46]; simpl; try done;
    intros <-; done.
Qed.

(** X13. The file name made for a capture is a stem, a dot and the
    extension of the type ([jpg] for a photo, [webm] for a video).
    Whatever text the platform gives for the time, the stem has at
    most 25 code units and holds neither a dot nor a colon, so the
    only dot of the name is the one before the extension. The record
    carries no analysis and no storage key, and a refused object URL
    does not prevent it. *)
Theorem createMediaFromBlob_filename p blob type :
  let media := Hook.createMediaFromBlob p blob type in
  exists stem,
    CapturedMedia.filename media = stem ++ 46 :: Hook.extension type
    /\ (length stem <= 25)%nat
    /\ (46 ∉ stem) /\ (Ch.colon ∉ stem)
    /\ (46 ∉ Hook.extension type)
    /\ CapturedMedia.geminiAnalysis media = None
    /\ CapturedMedia.indexedDbId media = None.
Proof.
  intros media.
  exists (Hook.type_name type ++ str "_"
          ++ Hook.dash_colons_and_dots (take 19 (Hook.toISOString p (Hook.timestamp_now p)))).
  destruct (dash_colons_and_dots_clean
              (take 19 (Hook.toISOString p (Hook.timestamp_now p)))) as [Hdot Hcolon].
  split; [|split; [|split; [|split; [|split]]]].
  - unfold media, Hook.createMediaFromBlob. simpl.
    by rewrite <- !app_assoc.
  - rewrite !length_app. unfold Hook.dash_colons_and_dots.
    rewrite length_fmap, length_take.
    assert (length (Hook.type_name type) = 5%nat) as -> by (by destruct type).
    change (length (str "_")) with 1%nat. lia.
  - rewrite !elem_of_app. intros [H|[H|H]]; [| |done].
    + destruct type; revert H; by apply (bool_decide_unpack _).
    + revert H. by apply (bool_decide_unpack _).
  - rewrite !elem_of_app. intros [H|[H|H]]; [| |done].
    + destruct type; revert H; by apply (bool_decide_unpack _).
    + revert H. by apply (bool_decide_unpack _).
  - destruct type; by apply (bool_decide_unpack _).
  - done.
Qed.

End CreateExtras.

Section ServiceExtras.

Import GeminiService.

Implicit Types (s : sdk) (o : options) (t : thrown).

Lemma after_comma_app header rest :
  Ch.comma ∉ header -> after_comma (header ++ Ch.comma :: rest) = Some rest.
Proof.
  induction header as [|c header IH]; [done|].
  rewrite not_elem_of_cons. intros [Hc Hh]. simpl.
  destruct (N.eqb_spec c Ch.comma) as [->|_]; [done|]. by apply IH.
Qed.

Lemma after_comma_none header :
  Ch.comma ∉ header -> after_comma header = None.
Proof.
  induction header as [|c header IH]; [done|].
  rewrite not_elem_of_cons. intros [Hc Hh]. simpl.
  destruct (N.eqb_spec c Ch.comma) as [->|_]; [done|]. by apply IH.
Qed.

Lemma before_comma_app a rest :
  Ch.comma ∉ a -> before_comma (a ++ Ch.comma :: rest) = a.
Proof.
  induction a as [|c a IH]; [done|].
  rewrite not_elem_of_cons. intros [Hc Hh]. simpl.
  destruct (N.eqb_spec c Ch.comma) as [->|_]; [done|]. by rewrite IH.
Qed.

Lemma before_comma_all a : Ch.comma ∉ a -> before_comma a = a.
Proof.
  induction a as [|c a IH]; [done|].
  rewrite not_elem_of_cons. intros [Hc Hh]. simpl.
  destruct (N.eqb_spec c Ch.comma) as [->|_]; [done|]. by rewrite IH.
Qed.

(** X14. What [blobToBase64] takes from a data URL is the text
    between its first and its second comma. For a header without a
    comma (as for [data:video/webm;base64]) and a payload without
    one, this is the payload. When the media type itself holds a
    comma (as [video/webm;codecs=vp8,opus] does), it is the rest of
    the media type, not the payload; and for a text without any comma
    there is no second piece, and [undefined] is what is sent. *)
Theorem second_piece_spec header payload :
  Ch.comma ∉ header -> Ch.comma ∉ payload ->
  second_piece (header ++ Ch.comma :: payload) = Some payload
  /\ (forall more, second_piece (header ++ Ch.comma :: payload ++ Ch.comma :: more)
                   = Some payload)
  /\ second_piece header = None
  /\ blobToBase64 (Done (header ++ Ch.comma :: payload)) = Done (Some payload).
Proof.
  intros Hh Hp. unfold blobToBase64, second_piece.
  rewrite !after_comma_app, after_comma_none by done. simpl.
  rewrite before_comma_all by done.
  split; [done|]. split; [|done].
  intros more. rewrite after_comma_app by done. simpl.
  by rewrite before_comma_app.
Qed.

Lemma second_piece_spec_witness :
  second_piece (str "data:video/webm;base64,GkXfo59ChoEB") = Some (str "GkXfo59ChoEB")
  /\ second_piece (str "data:video/webm;codecs=vp8,opus;base64,GkXfo59ChoEB")
     = Some (str "opus;base64").
Proof.
  split.
  - apply (second_piece_spec (str "data:video/webm;base64") (str "GkXfo59ChoEB"));
      by apply (bool_decide_unpack _).
  - apply (proj1 (proj2 (second_piece_spec (str "data:video/webm;codecs=vp8")
                           (str "opus;base64")
                           ltac:(by apply (bool_decide_unpack _))
                           ltac:(by apply (bool_decide_unpack _))))
             (str "GkXfo59ChoEB")).
Defined.

Lemma or_else_nonempty a b : b <> [] -> or_else a b <> [].
Proof. unfold or_else. by destruct a as [[|c x]|]. Qed.

(** X15. The answer of [processVideo], path by path; it never
    throws. Without an API key the answer is the fixed message, and
    neither the SDK nor the reader is used. With a key, the request
    names the caller's model, prompt and the blob's media type where
    these are not empty, and the defaults otherwise, none of them
    empty. When the model is obtained, the blob is read and the SDK
    gives a text, the answer reports success and carries that text
    and no error. When one of the three throws, the answer reports a
    failure with no result and the message of the error, or [Unknown
    error occurred] for a thrown value that is not an error. So the
    answer reports success exactly when the SDK gave a text. *)
Theorem processVideo_answer configured s blob_type videoBlob o :
  let r := processVideo configured s blob_type videoBlob o in
  let model_name := or_else (model o) default_model in
  let rq url :=
    mkRequest model_name (or_else (prompt o) default_prompt)
      (second_piece url) (or_else (Some blob_type) (str "video/webm")) in
  let failed t :=
    GeminiResult.mk false None
      (Some match t with
            | ErrorObject message => message
            | OtherValue => str "Unknown error occurred"
            end) in
  (configured = false ->
   forall s', processVideo configured s' blob_type videoBlob o
              = GeminiResult.mk false None (Some not_initialized))
  /\ (forall t, configured = true ->
        getGenerativeModel s model_name = Thrown t -> r = failed t)
  /\ (forall u t, configured = true ->
        getGenerativeModel s model_name = Done u ->
        readAsDataURL s videoBlob = Thrown t -> r = failed t)
  /\ (forall u url t, configured = true ->
        getGenerativeModel s model_name = Done u ->
        readAsDataURL s videoBlob = Done url ->
        generateContent s (rq url) = Thrown t -> r = failed t)
  /\ (forall u url text, configured = true ->
        getGenerativeModel s model_name = Done u ->
        readAsDataURL s videoBlob = Done url ->
        generateContent s (rq url) = Done text ->
        r = GeminiResult.mk true (Some text) None)
  /\ (GeminiResult.success r = true <->
      configured = true
      /\ exists u url text,
           getGenerativeModel s model_name = Done u
           /\ readAsDataURL s videoBlob = Done url
           /\ generateContent s (rq url) = Done text)
  /\ (GeminiResult.success r = false ->
      GeminiResult.result r = None /\ is_Some (GeminiResult.error r))
  /\ (forall url,
        request_model (rq url) <> [] /\ request_prompt (rq url) <> []
        /\ request_mimeType (rq url) <> []
        /\ (forall m, model o = Some m -> m <> [] -> request_model (rq url) = m)
        /\ (forall p, prompt o = Some p -> p <> [] -> request_prompt (rq url) = p)
        /\ (blob_type <> [] -> request_mimeType (rq url) = blob_type)).
Proof.
  intros r model_name rq failed.
  unfold r, processVideo, blobToBase64, failure. fold model_name.
  split; [by intros -> s'|].
  split; [by intros t -> ->|].
  split; [by intros u t -> -> ->|].
  split.
  { intros u url t -> -> ->. simpl. fold (rq url). by intros ->. }
  split.
  { intros u url text -> -> ->. simpl. fold (rq url). by intros ->. }
  split.
  { destruct configured; simpl; [|by split; [|intros []]].
    destruct (getGenerativeModel s model_name) as [u|t];
      [|split; [done|by intros (_ & ? & ? & ? & ? & _)]].
    destruct (readAsDataURL s videoBlob) as [url|t];
      [|split; [done|by intros (_ & ? & ? & ? & _ & ? & _)]].
    fold (rq url).
    destruct (generateContent s (rq url)) as [text|t] eqn:Hgen.
    - split; [|done]. intros _. split; [done|]. by exists u, url, text.
    - split; [done|]. intros (_ & ? & url' & ? & _ & [= <-] & Hgen').
      congruence. }
  split.
  { destruct configured; simpl; [|by eauto].
    destruct (getGenerativeModel s model_name); [|by eauto].
    destruct (readAsDataURL s videoBlob) as [url|]; [|by eauto].
    destruct (generateContent s _); [done|by eauto]. }
  intros url. simpl.
  split; [by apply or_else_nonempty|]. split; [by apply or_else_nonempty|].
  split; [by apply or_else_nonempty|].
  split; [|split].
  - unfold model_name. intros m -> Hm. by destruct m.
  - intros p -> Hp. by destruct p.
  - intros Hb. by destruct blob_type.
Qed.

Lemma processVideo_answer_witness :
  let s := mkSdk (fun _ => Done ())
             (fun _ => Done (str "data:video/webm;base64,GkXf"))
             (fun rq => if decide (request_data rq = Some (str "GkXf"))
                        then Done (str "Two pushups.")
                        else Thrown (ErrorObject (str "no video"))) in
  processVideo true s (str "video/webm") [26; 69; 223] (mkOptions None None)
  = GeminiResult.mk true (Some (str "Two pushups.")) None
  /\ processVideo false s (str "video/webm") [26; 69; 223] (mkOptions None None)
     = GeminiResult.mk false None (Some not_initialized).
Proof.
  intros s.
  pose proof (processVideo_answer true s (str "video/webm") [26; 69; 223]
                (mkOptions None None)) as (_ & _ & _ & _ & Hok & _).
  pose proof (processVideo_answer false s (str "video/webm") [26; 69; 223]
                (mkOptions None None)) as (Hoff & _).
  split.
  - by apply (Hok () (str "data:video/webm;base64,GkXf") (str "Two pushups.")).
  - by apply Hoff.
Defined.

End ServiceExtras.

Section ServiceInHook.

Import Controller.

Implicit Types (e : env) (w : world) (media m : CapturedMedia.t).

Lemma submitted_prompt_nonempty analysis : submitted_prompt analysis <> [].
Proof.
  unfold submitted_prompt.
  by destruct (GeminiAnalysis.prompt analysis) as [[|c p]|].
Qed.

(** X16. The hook on top of the inference service. The request that
    reaches the SDK carries the prompt of the record's analysis (the
    default prompt of the service is never used) and the default
    model. When the SDK throws, or answers with the empty text, the
    completion records a failure in memory and leaves the store as it
    is; the message shown is the one of the error thrown, [Analysis
    failed] for an error with an empty message and for an empty
    answer, and [Unknown error occurred] for a thrown value that is
    not an error. *)
Theorem service_failure_shown s blob_type now storeKey down media analysis url
    outcome w :
  CapturedMedia.type media = Video ->
  CapturedMedia.geminiAnalysis media = Some analysis ->
  GeminiService.getGenerativeModel s GeminiService.default_model
  = GeminiService.Done () ->
  GeminiService.readAsDataURL s (CapturedMedia.blob media)
  = GeminiService.Done url ->
  GeminiService.generateContent s
    (GeminiService.mkRequest GeminiService.default_model
       (submitted_prompt analysis) (GeminiService.second_piece url)
       (GeminiService.or_else (Some (blob_type (CapturedMedia.blob media)))
          (str "video/webm")))
  = outcome ->
  (forall c text, outcome <> GeminiService.Done (c :: text)) ->
  processVideoWithGemini
    (GeminiService.env_with true s blob_type now storeKey down) media w
  = (Normal (),
     mkWorld
       (apply_analysis (CapturedMedia.id media)
          (GeminiAnalysis.mk (GeminiAnalysis.result analysis)
             (GeminiAnalysis.prompt analysis)
             (GeminiAnalysis.timestamp analysis) (Some false)
             (Some match outcome with
                   | GeminiService.Thrown (GeminiService.ErrorObject (c :: message)) =>
                       c :: message
                   | GeminiService.Thrown GeminiService.OtherValue =>
                       str "Unknown error occurred"
                   | _ => str "Analysis failed"
                   end)
             (GeminiAnalysis.pushupData analysis))
          (capturedMedia w))
       (db w)).
Proof.
  intros Hty Han Hmodel Hread Hgen Hfail.
  assert (GeminiService.or_else (Some (submitted_prompt analysis))
            GeminiService.default_prompt = submitted_prompt analysis) as Hprompt.
  { pose proof (submitted_prompt_nonempty analysis) as Hne.
    unfold GeminiService.or_else. by destruct (submitted_prompt analysis). }
  set (r := GeminiService.processVideo true s (blob_type (CapturedMedia.blob media))
              (CapturedMedia.blob media)
              (GeminiService.mkOptions (Some (submitted_prompt analysis)) None)).
  assert (r = match outcome with
              | GeminiService.Done text => GeminiResult.mk true (Some text) None
              | GeminiService.Thrown t => GeminiService.failure t
              end) as Hr.
  { unfold r, GeminiService.processVideo, GeminiService.blobToBase64. simpl.
    change (GeminiService.or_else None GeminiService.default_model)
      with GeminiService.default_model.
    by rewrite Hmodel, Hread, Hprompt, Hgen. }
  rewrite (processVideoWithGemini_failure _ media analysis r) by
    (try done; rewrite Hr; destruct outcome as [[|c text]|t]; try done;
     by destruct (Hfail c text)).
  rewrite Hr. unfold errorAnalysis.
  by destruct outcome as [[|c text]|[[|c message]|]].
Qed.

Lemma service_failure_shown_witness :
  let s := GeminiService.mkSdk (fun _ => GeminiService.Done ())
             (fun _ => GeminiService.Done (str "data:video/webm;base64,GkXf"))
             (fun _ => GeminiService.Done []) in
  let e := GeminiService.env_with true s (fun _ => str "video/webm")
             1700000000500 StoredMediaData.id false in
  let media := Sample.video1_pending e in
  exists m a,
    capturedMedia (processVideoWithGemini e media (mkWorld [media] ∅)).2 = [m]
    /\ CapturedMedia.geminiAnalysis m = Some a
    /\ GeminiAnalysis.error a = Some (str "Analysis failed").
Proof.
  intros s e media.
  eexists _, _. split; [|split].
  - unfold e.
    by rewrite (service_failure_shown s _ _ _ _ media (pending_analysis e)
                  (str "data:video/webm;base64,GkXf") (GeminiService.Done [])).
  - reflexivity.
  - reflexivity.
Defined.

(** X17. What the preview shows once the inference client has
    answered with a text and the store, if used, has accepted the
    record. If the parser recovers a structure from the text, every
    video with the submitted id gets the overlay on that structure
    and no analysis section. Otherwise it gets no overlay, and the
    analysis section shows the text as it came, unless the analysis
    already carried an error message, which is then shown instead of
    the text. *)
Theorem answer_shown e media analysis r text w m :
  CapturedMedia.type media = Video ->
  CapturedMedia.geminiAnalysis media = Some analysis ->
  processVideo e (CapturedMedia.blob media) (submitted_prompt analysis)
  = Normal r ->
  GeminiResult.success r = true ->
  GeminiResult.result r = Some text -> text <> [] ->
  storeUnavailable e = false ->
  m ∈ capturedMedia (processVideoWithGemini e media w).2 ->
  CapturedMedia.id m = CapturedMedia.id media ->
  CapturedMedia.type m = Video ->
  match Parser.parseAnalysisResult text with
  | Normal (Some v) =>
      Preview.overlay m = Preview.OverlayOn v
      /\ Preview.analysis_section m = None
  | _ =>
      Preview.overlay m = Preview.NoOverlay
      /\ Preview.analysis_section m
         = Some match GeminiAnalysis.error analysis with
                | Some (c :: message) => Preview.AnalysisFailed (c :: message)
                | _ => Preview.RawText text
                end
  end.
Proof.
  intros Hty Han Hr Hok Htext Hne Hup Hm Hid Htym.
  assert (exists pushupData,
            Parser.parseAnalysisResult text = Normal pushupData
            /\ (forall v, pushupData = Some v -> js_truthy v = true)
            /\ CapturedMedia.geminiAnalysis m
               = Some (updatedAnalysis analysis text pushupData))
    as (pushupData & Hparse & Htruthy & Ha).
  { destruct (processVideoWithGemini_answered e media analysis r text w)
      as (pushupData & Hparse & Htruthy & Hrun); [done..|].
    exists pushupData. split; [done|]. split; [done|].
    rewrite Hrun, Hup in Hm. cbn [snd] in Hm.
    destruct (truthy_str (CapturedMedia.indexedDbId media));
      by eapply apply_analysis_elem. }
  rewrite Hparse. clear Hparse Hm.
  unfold Preview.overlay, Preview.analysis_section, Preview.analysis_status.
  rewrite Htym, Ha. simpl.
  destruct pushupData as [v|]; simpl.
  - by rewrite (Htruthy v).
  - split; [done|].
    destruct (GeminiAnalysis.error analysis) as [[|c message]|]; simpl;
      try done; by destruct text.
Qed.

Lemma answer_shown_witness :
  let e := Sample.services (Sample.answering (str "Twelve pushups.")) false in
  let media := Sample.video1_pending e in
  let w := mkWorld [media] ∅ in
  exists m,
    capturedMedia (processVideoWithGemini e media w).2 = [m]
    /\ Preview.overlay m = Preview.NoOverlay
    /\ Preview.analysis_section m = Some (Preview.RawText (str "Twelve pushups.")).
Proof.
  intros e media w. eexists. split; [reflexivity|].
  apply (answer_shown e media (pending_analysis e)
           (GeminiResult.mk true (Some (str "Twelve pushups.")) None)
           (str "Twelve pushups.") w); try done.
  by left.
Defined.

End ServiceInHook.

Section OverlayExtras.

Import Overlay.

Implicit Types (timeline : list RepEvent) (d : Duration) (t : Q)
  (r x y : RepEvent) (st : state) (video : Video) (i j k : nat).

(** [find] answers with the element at the first index that passes. *)
Lemma find_lookup {A} (f : A -> bool) (l : list A) : forall k a,
  l !! k = Some a -> f a = true ->
  (forall j b, (j < k)%nat -> l !! j = Some b -> f b = false) ->
  List.find f l = Some a.
Proof.
  induction l as [|b l IH]; intros k a Hk Ha Hbefore; [done|].
  destruct k as [|k]; simpl in *.
  - injection Hk as ->. by rewrite Ha.
  - rewrite (Hbefore 0%nat b) by (done || lia).
    apply (IH k); [done|done|].
    intros j c Hj Hc. apply (Hbefore (S j)); [lia|done].
Qed.

Lemma consecutive_number timeline k : forall x0 y,
  consecutive timeline -> timeline !! 0%nat = Some x0 -> timeline !! k = Some y ->
  repNumber y = (repNumber x0 + Z.of_nat k)%Z.
Proof.
  induction k as [|k IH]; intros x0 y Hc H0 Hk.
  - rewrite H0 in Hk. injection Hk as ->. lia.
  - destruct (lookup_lt_is_Some_2 timeline k) as [z Hz].
    { apply lookup_lt_Some in Hk. lia. }
    destruct (Hc k z y Hz Hk) as [Hn _].
    rewrite Hn, (IH x0 z) by done. lia.
Qed.

Lemma consecutive_distinct timeline i j x y :
  consecutive timeline -> timeline !! i = Some x -> timeline !! j = Some y ->
  (repNumber y - repNumber x = Z.of_nat j - Z.of_nat i)%Z.
Proof.
  intros Hc Hi Hj.
  destruct (lookup_lt_is_Some_2 timeline 0) as [x0 H0].
  { apply lookup_lt_Some in Hi. lia. }
  rewrite (consecutive_number timeline i x0 x), (consecutive_number timeline j x0 y) by done.
  lia.
Qed.

Lemma consecutive_time timeline k : forall i x y,
  consecutive timeline -> timeline !! i = Some x ->
  timeline !! (i + S k)%nat = Some y ->
  (timestampSeconds x < timestampSeconds y)%Q.
Proof.
  induction k as [|k IH]; intros i x y Hc Hi Hk.
  - replace (i + 1)%nat with (S i) in Hk by lia. by destruct (Hc i x y Hi Hk).
  - destruct (lookup_lt_is_Some_2 timeline (i + S k)) as [z Hz].
    { apply lookup_lt_Some in Hk. lia. }
    replace (i + S (S k))%nat with (S (i + S k)) in Hk by lia.
    destruct (Hc _ z y Hz Hk) as [_ Ht].
    eapply Qlt_trans; [|exact Ht]. by apply (IH i).
Qed.

Lemma consecutive_time_le timeline i j x y :
  consecutive timeline -> timeline !! i = Some x -> timeline !! j = Some y ->
  (i <= j)%nat -> (timestampSeconds x <= timestampSeconds y)%Q.
Proof.
  intros Hc Hi Hj Hle. destruct (decide (i = j)) as [->|Hne].
  - rewrite Hi in Hj. injection Hj as ->. apply Qle_refl.
  - apply Qlt_le_weak. apply (consecutive_time timeline (j - i - 1) i); [done|done|].
    by replace (i + S (j - i - 1))%nat with j by lia.
Qed.

(** In a recording of consecutive reps the entry found by the next
    number is the next entry, as long as the sum is exact. *)
Lemma nextRep_consecutive timeline i x :
  consecutive timeline -> timeline !! i = Some x ->
  (Z.abs (repNumber x) < 2 ^ 53)%Z ->
  nextRep timeline x = timeline !! S i.
Proof.
  intros Hc Hi Hx. unfold nextRep. rewrite (plus_one_exact _ Hx).
  destruct (timeline !! S i) as [y|] eqn:Hy.
  - apply (find_lookup _ _ (S i)); [done| |].
    + apply Z.eqb_eq. by destruct (Hc i x y).
    + intros j b Hj Hb. apply Z.eqb_neq.
      pose proof (consecutive_distinct timeline i j x b Hc Hi Hb). lia.
  - apply find_all_false. intros b [j Hb]%list_elem_of_lookup.
    apply Z.eqb_neq.
    pose proof (consecutive_distinct timeline i j x b Hc Hi Hb).
    apply lookup_ge_None in Hy. apply lookup_lt_Some in Hb. lia.
Qed.

Lemma is_active_consecutive timeline d t j x :
  consecutive timeline -> timeline !! j = Some x ->
  (Z.abs (repNumber x) < 2 ^ 53)%Z ->
  is_active timeline d t x = true
  <-> (timestampSeconds x <= t)%Q
      /\ match timeline !! S j with
         | Some next => (t < timestampSeconds next)%Q
         | None => before t d = true
         end.
Proof.
  intros Hc Hj Hx. rewrite is_active_spec. unfold nextTime.
  rewrite (nextRep_consecutive timeline j x) by done.
  destruct (timeline !! S j); [|done]. simpl. by rewrite Qlt_bool_iff.
Qed.

(** X18. In a recording of consecutive reps (from one entry to the
    next the number goes up by one and the time goes up) whose
    numbers are below [2^53] in magnitude, so that adding one to them
    is exact, the active rep at a time is the last rep begun: the
    entry whose time is at or before it while the time of the next
    entry, or for the last entry the duration of the video, is after
    it. No other entry of the timeline passes the test of the handler
    at that time. *)
Theorem currentRep_consecutive timeline d t i r :
  consecutive timeline ->
  Forall (fun x => (Z.abs (repNumber x) < 2 ^ 53)%Z) timeline ->
  timeline !! i = Some r ->
  (timestampSeconds r <= t)%Q ->
  match timeline !! S i with
  | Some next => (t < timestampSeconds next)%Q
  | None => before t d = true
  end ->
  currentRep timeline d t = Some r
  /\ forall j x, timeline !! j = Some x -> is_active timeline d t x = true ->
                 j = i.
Proof.
  intros Hc Hbound Hi Hlo Hup.
  assert (forall j x, timeline !! j = Some x ->
                      (Z.abs (repNumber x) < 2 ^ 53)%Z) as Hsmall.
  { intros j x Hj. by apply (Forall_lookup_1 _ _ _ _ Hbound Hj). }
  assert (forall j x, timeline !! j = Some x -> is_active timeline d t x = true ->
                      j = i) as Honly.
  { intros j x Hj
      [Hlo' Hup']%(is_active_consecutive timeline d t j x Hc Hj (Hsmall j x Hj)).
    destruct (Nat.lt_trichotomy j i) as [Hlt|[->|Hgt]]; [|done|]; exfalso.
    - destruct (lookup_lt_is_Some_2 timeline (S j)) as [y Hy].
      { apply lookup_lt_Some in Hi. lia. }
      rewrite Hy in Hup'.
      pose proof (consecutive_time_le timeline (S j) i y r Hc Hy Hi ltac:(lia)) as Hle.
      apply (Qlt_irrefl t).
      eapply Qlt_le_trans; [exact Hup'|]. by eapply Qle_trans.
    - destruct (lookup_lt_is_Some_2 timeline (S i)) as [y Hy].
      { apply lookup_lt_Some in Hj. lia. }
      rewrite Hy in Hup.
      pose proof (consecutive_time_le timeline (S i) j y x Hc Hy Hj ltac:(lia)) as Hle.
      apply (Qlt_irrefl t).
      eapply Qlt_le_trans; [exact Hup|]. by eapply Qle_trans. }
  split; [|done].
  apply (find_lookup _ _ i); [done| |].
  - by apply (is_active_consecutive timeline d t i r Hc Hi (Hsmall i r Hi)).
  - intros j b Hj Hb. apply not_true_iff_false. intros Hact.
    pose proof (Honly j b Hb Hact). lia.
Qed.

Lemma currentRep_consecutive_witness :
  let timeline := [Sample.rep 1 0; Sample.rep 2 10; Sample.rep 3 30] in
  currentRep timeline Sample.forty 35 = Some (Sample.rep 3 30)
  /\ forall j x, timeline !! j = Some x ->
                 is_active timeline Sample.forty 35 x = true -> j = 2%nat.
Proof.
  intros timeline. apply currentRep_consecutive; [| |done|done|done].
  - intros [|[|[|i]]] x y Hx Hy; simplify_eq/=; done.
  - repeat constructor.
Defined.

(** X19. What the overlay renders for a recording of consecutive
    reps once an entry with a number other than 0 has been selected:
    the readout shows its number, its point of the timeline, and no
    other, is highlighted, and the panel shows that very entry. *)
Theorem render_consecutive timeline video st i r :
  consecutive timeline -> timeline !! i = Some r ->
  currentRep timeline (duration video) (currentTime st) = Some r ->
  repNumber r <> 0%Z ->
  render timeline (handleTimeUpdate timeline video st)
  = mkView (ReadoutRep (repNumber r))
      (<[i := true]> (replicate (length timeline) false))
      (RepPanel r).
Proof.
  intros Hc Hi Hcur Hnz. unfold render, handleTimeUpdate. simpl.
  rewrite Hcur. simpl.
  assert ((repNumber r =? 0)%Z = false) as -> by (by apply Z.eqb_neq).
  simpl. f_equal.
  - apply list_eq. intros j. rewrite list_lookup_fmap.
    destruct (decide (j = i)) as [->|Hne].
    + rewrite Hi, list_lookup_insert_eq by (rewrite length_replicate; by eapply lookup_lt_Some).
      simpl. by rewrite Z.eqb_refl.
    + rewrite list_lookup_insert_ne by done.
      destruct (timeline !! j) as [x|] eqn:Hj; simpl.
      * rewrite lookup_replicate_2 by (by eapply lookup_lt_Some).
        f_equal. apply Z.eqb_neq.
        pose proof (consecutive_distinct timeline i j r x Hc Hi Hj). lia.
      * apply lookup_ge_None in Hj. symmetry. apply lookup_ge_None.
        by rewrite length_replicate.
  - rewrite (find_lookup _ _ i r); [done|done|by apply Z.eqb_eq|].
    intros j b Hj Hb. apply Z.eqb_neq.
    pose proof (consecutive_distinct timeline i j r b Hc Hi Hb). lia.
Qed.

Lemma render_consecutive_witness :
  let timeline := [Sample.rep 1 0; Sample.rep 2 10; Sample.rep 3 30] in
  render timeline
    (handleTimeUpdate timeline (mkVideo 13 Sample.forty) (mkState 12 true None))
  = mkView (ReadoutRep 2) [false; true; false] (RepPanel (Sample.rep 2 10)).
Proof.
  intros timeline.
  apply (render_consecutive timeline (mkVideo 13 Sample.forty)
           (mkState 12 true None) 1 (Sample.rep 2 10)); [|done|done|done].
  intros [|[|[|i]]] x y Hx Hy; simplify_eq/=; done.
Defined.

End OverlayExtras.

Section ReloadExtras.

Import Controller.

(** X20. A pending analysis survives a reload as pending. A video
    added while inference is available is filed in the store with the
    pending analysis. Loaded back from that store record, the video
    has the stored id as its storage key and is still marked as being
    processed: its preview shows the progress notice, the
    reprocessing after loading finds nothing to recover in it, and
    loading starts no analysis. *)
Theorem pending_survives_reload e media w createObjectURL u w' :
  CapturedMedia.type media = Video -> isConfigured e = true ->
  storeUnavailable e = false ->
  createObjectURL (CapturedMedia.blob media) = Normal u ->
  let pending := pending_analysis e in
  let d := stored_data media (Some pending) in
  let restored :=
    CapturedMedia.mk (CapturedMedia.id media) Video u (CapturedMedia.blob media)
      (CapturedMedia.timestamp media) (CapturedMedia.filename media)
      (Some (CapturedMedia.id media)) (Some pending) in
  db (addMedia e media w).2 !! storeKey e d = Some d
  /\ Hook.loadPersistedMedia createObjectURL (Normal [d]) w'
     = (Normal (Some [restored]), mkWorld [restored] (db w'))
  /\ Preview.analysis_section restored = Some Preview.Analyzing
  /\ reprocess_restored [restored] (mkWorld [restored] (db w'))
     = (Normal 0%nat, mkWorld [restored] (db w')).
Proof.
  intros Hty Hconf Hup Hu pending d restored.
  split; [|split; [|split]].
  - rewrite addMedia_world, Hty, Hconf, Hup. simpl.
    by rewrite lookup_insert_eq.
  - unfold Hook.loadPersistedMedia, try_catchM, mbind, M_bind, lift,
      setCapturedMedia, mret, M_ret. simpl.
    unfold Hook.restore. simpl. rewrite Hu. simpl. by rewrite Hty.
  - done.
  - done.
Qed.

Lemma pending_survives_reload_witness :
  let e := Sample.services (Sample.answering Sample.report) false in
  exists restored,
    Hook.loadPersistedMedia (fun _ => Normal (str "blob:51ce"))
      (Normal [stored_data Sample.video1 (Some (pending_analysis e))])
      (mkWorld [] ∅)
    = (Normal (Some [restored]), mkWorld [restored] ∅)
    /\ Preview.analysis_section restored = Some Preview.Analyzing.
Proof.
  intros e.
  destruct (pending_survives_reload e Sample.video1 (mkWorld [] ∅)
              (fun _ => Normal (str "blob:51ce")) (str "blob:51ce")
              (mkWorld [] ∅) eq_refl eq_refl eq_refl eq_refl)
    as (_ & Hload & Hshown & _).
  eexists. split; [exact Hload|exact Hshown].
Defined.

End ReloadExtras.
